(** * Chat relay server (server.py / client.py): model and properties

    The relay keeps one process-wide dictionary [clients] (socket -> nickname)
    and runs [handle_client] once per accepted socket.  The model below
    follows server.py function by function: [broadcast], [remove_client],
    [handle_client], [send_whisper], [recv_line], plus [recv_loop] of
    client.py.  Sockets are identified by a number (object identity), the
    dictionary is an insertion-ordered association list, and every call of
    [sendall] / [close] is recorded in a trace so that "who was sent what"
    can be stated. *)

From Stdlib Require Import String Ascii.
From Stdlib Require Import List NArith ZArith Zify Bool Arith Lia.
From Stdlib.Strings Require Import Byte.
Import ListNotations.

(** ** Bytes and text *)

(** Python [bytes]. *)
Definition bytes := list byte.

(** Python [str]: a sequence of Unicode code points. *)
Definition str := list N.

Definition byte_of_N (n : N) : byte :=
  match Byte.of_N (n mod 256) with
  | Some b => b
  | None => x00
  end.

(** The [errors=] argument of [encode] / [decode]. *)
Inductive errors := Strict | Replace.

Module Utf8.

Local Open Scope N_scope.

Definition is_continuation (b : byte) : bool :=
  (0x80 <=? Byte.to_N b) && (Byte.to_N b <? 0xC0).

Definition low6 (b : byte) : N := N.land (Byte.to_N b) 0x3F.

(** What the decoder does at an ill-formed position: raise (strict) or
    emit U+FFFD and go on with the rest (replace). *)
Definition on_error (e : errors) (k : option str) : option str :=
  match e with
  | Strict => None
  | Replace => option_map (cons 0xFFFD) k
  end.

(** Second byte allowed after a three-byte lead [b1] (no overlong forms, no
    surrogates). *)
Definition second_ok3 (b1 b2 : byte) : bool :=
  is_continuation b2 &&
  negb ((Byte.to_N b1 =? 0xE0) && (Byte.to_N b2 <? 0xA0)) &&
  negb ((Byte.to_N b1 =? 0xED) && (0xA0 <=? Byte.to_N b2)).

(** Second byte allowed after a four-byte lead [b1] (no overlong forms,
    nothing above U+10FFFF). *)
Definition second_ok4 (b1 b2 : byte) : bool :=
  is_continuation b2 &&
  negb ((Byte.to_N b1 =? 0xF0) && (Byte.to_N b2 <? 0x90)) &&
  negb ((Byte.to_N b1 =? 0xF4) && (0x90 <=? Byte.to_N b2)).

(** [bytes.decode('utf-8', errors=e)].  [None] stands for
    [UnicodeDecodeError].  An ill-formed sequence is cut at its maximal valid
    prefix, as the interpreter's decoder does: a bad lead byte alone, a lead
    byte with the continuation bytes that were still acceptable, or a
    truncated sequence at the end of the input. *)
Fixpoint decode (e : errors) (b : bytes) {struct b} : option str :=
  match b with
  | [] => Some []
  | b1 :: r1 =>
    let c1 := Byte.to_N b1 in
    if c1 <? 0x80 then option_map (cons c1) (decode e r1)
    else if c1 <? 0xC2 then on_error e (decode e r1)
    else if c1 <? 0xE0 then
      match r1 with
      | [] => on_error e (Some [])
      | b2 :: r2 =>
        if is_continuation b2
        then option_map (cons (N.land c1 0x1F * 64 + low6 b2)) (decode e r2)
        else on_error e (decode e r1)
      end
    else if c1 <? 0xF0 then
      match r1 with
      | [] => on_error e (Some [])
      | b2 :: r2 =>
        if second_ok3 b1 b2 then
          match r2 with
          | [] => on_error e (Some [])
          | b3 :: r3 =>
            if is_continuation b3
            then option_map
                   (cons (N.land c1 0x0F * 4096 + low6 b2 * 64 + low6 b3))
                   (decode e r3)
            else on_error e (decode e r2)
          end
        else on_error e (decode e r1)
      end
    else if c1 <? 0xF5 then
      match r1 with
      | [] => on_error e (Some [])
      | b2 :: r2 =>
        if second_ok4 b1 b2 then
          match r2 with
          | [] => on_error e (Some [])
          | b3 :: r3 =>
            if is_continuation b3 then
              match r3 with
              | [] => on_error e (Some [])
              | b4 :: r4 =>
                if is_continuation b4
                then option_map
                       (cons (N.land c1 0x07 * 262144 + low6 b2 * 4096
                              + low6 b3 * 64 + low6 b4))
                       (decode e r4)
                else on_error e (decode e r3)
              end
            else on_error e (decode e r2)
          end
        else on_error e (decode e r1)
      end
    else on_error e (decode e r1)
  end.

Definition is_surrogate (c : N) : bool := (0xD800 <=? c) && (c <=? 0xDFFF).

(** UTF-8 bytes of one code point; [None] for a surrogate, which UTF-8
    cannot carry. *)
Definition encode_cp (c : N) : option bytes :=
  if c <? 0x80 then Some [byte_of_N c]
  else if c <? 0x800 then
    Some [byte_of_N (0xC0 + c / 64); byte_of_N (0x80 + c mod 64)]
  else if is_surrogate c then None
  else if c <? 0x10000 then
    Some [byte_of_N (0xE0 + c / 4096); byte_of_N (0x80 + (c / 64) mod 64);
          byte_of_N (0x80 + c mod 64)]
  else
    Some [byte_of_N (0xF0 + (c / 262144) mod 8);
          byte_of_N (0x80 + (c / 4096) mod 64);
          byte_of_N (0x80 + (c / 64) mod 64); byte_of_N (0x80 + c mod 64)].

(** [str.encode('utf-8', errors=e)].  [None] stands for
    [UnicodeEncodeError]; with [errors='replace'] an unencodable code point
    becomes [?]. *)
Fixpoint encode (e : errors) (s : str) : option bytes :=
  match s with
  | [] => Some []
  | c :: s' =>
    match encode_cp c with
    | Some bs => option_map (app bs) (encode e s')
    | None =>
      match e with
      | Strict => None
      | Replace => option_map (cons "?"%byte) (encode e s')
      end
    end
  end.

(** The total form of [encode(..., errors='replace')], used where the source
    passes [errors='replace'] outside any handler. *)
Definition encode_replace (s : str) : bytes :=
  flat_map (fun c => match encode_cp c with
                     | Some bs => bs
                     | None => ["?"%byte]
                     end) s.

End Utf8.

(** A string literal of the source: the code points of its UTF-8 text. *)
Definition lit (s : string) : str :=
  match Utf8.decode Replace (list_byte_of_string s) with
  | Some t => t
  | None => []
  end.

(** ** The [str] methods the server uses *)

Module Str.

Local Open Scope N_scope.

(** [str.isspace] on one character: the interpreter's white-space table. *)
Definition isspace (c : N) : bool :=
  ((0x09 <=? c) && (c <=? 0x0D)) || ((0x1C <=? c) && (c <=? 0x20))
  || (c =? 0x85) || (c =? 0xA0) || (c =? 0x1680)
  || ((0x2000 <=? c) && (c <=? 0x200A))
  || (c =? 0x2028) || (c =? 0x2029) || (c =? 0x202F) || (c =? 0x205F)
  || (c =? 0x3000).

Fixpoint lstrip (s : str) : str :=
  match s with
  | [] => []
  | c :: s' => if isspace c then lstrip s' else s
  end.

Definition rstrip (s : str) : str := rev (lstrip (rev s)).

(** [s.strip()] *)
Definition strip (s : str) : str := rstrip (lstrip s).

(** [a == b] *)
Fixpoint eqb (a b : str) : bool :=
  match a, b with
  | [], [] => true
  | x :: a', y :: b' => (x =? y) && eqb a' b'
  | _, _ => false
  end.

(** [s.startswith(p)] *)
Fixpoint startswith (s p : str) : bool :=
  match p, s with
  | [], _ => true
  | x :: p', y :: s' => (x =? y) && startswith s' p'
  | _ :: _, [] => false
  end.

(** Cut [s] at the first occurrence of the character [sep]. *)
Fixpoint cut (sep : N) (s : str) : option (str * str) :=
  match s with
  | [] => None
  | c :: s' =>
    if c =? sep then Some ([], s')
    else match cut sep s' with
         | Some (a, b) => Some (c :: a, b)
         | None => None
         end
  end.

(** [s.split(sep, maxsplit)] for a one-character separator. *)
Fixpoint split (sep : N) (maxsplit : nat) (s : str) : list str :=
  match maxsplit with
  | O => [s]
  | S m =>
    match cut sep s with
    | Some (a, b) => a :: split sep m b
    | None => [s]
    end
  end.

(** [sep.join(parts)] (used to state what [split] preserves). *)
Fixpoint join (sep : N) (parts : list str) : str :=
  match parts with
  | [] => []
  | [p] => p
  | p :: ps => p ++ sep :: join sep ps
  end.

End Str.

Definition SPACE : N := 0x20%N.
Definition NL : N := 0x0A%N.

(** ** Sockets, the client dictionary and the observable trace *)

(** A socket object, compared by identity. *)
Definition sock := nat.

(** [s is not exclude] *)
Definition is_not (s : sock) (exclude : option sock) : bool :=
  match exclude with
  | None => true
  | Some x => negb (Nat.eqb s x)
  end.

(** The dictionary [clients]: insertion ordered, one entry per key. *)
Module Dict.

Definition t := list (sock * str).

Fixpoint get (k : sock) (d : t) : option str :=
  match d with
  | [] => None
  | (k', v) :: d' => if Nat.eqb k' k then Some v else get k d'
  end.

(** [d[k] = v]: an existing key keeps its position, a new key goes last. *)
Fixpoint set (k : sock) (v : str) (d : t) : t :=
  match d with
  | [] => [(k, v)]
  | (k', v') :: d' => if Nat.eqb k' k then (k, v) :: d' else (k', v') :: set k v d'
  end.

Definition remove (k : sock) (d : t) : t :=
  filter (fun kv => negb (Nat.eqb (fst kv) k)) d.

(** [d.pop(k, None)] *)
Definition pop (k : sock) (d : t) : option str * t := (get k d, remove k d).

(** [d.keys()] *)
Definition keys (d : t) : list sock := map fst d.

End Dict.

(** One call on a socket, as seen from outside: [sendall] with the bytes
    passed and whether it returned ([true]) or raised [OSError] ([false]),
    and [close]. *)
Inductive event :=
| EvSend (s : sock) (data : bytes) (ok : bool)
| EvClose (s : sock).

(** The state the server functions act on: the dictionary, the sockets this
    process has closed, the sockets whose peer is gone (a write to them
    raises [OSError]), and the calls made so far. *)
Record world := mkWorld {
  clients : Dict.t;
  closed : list sock;
  broken : list sock;
  trace : list event
}.

Definition is_closed (w : world) (s : sock) : bool := existsb (Nat.eqb s) (closed w).

Definition is_broken (w : world) (s : sock) : bool := existsb (Nat.eqb s) (broken w).

(** A write to [s] succeeds: [s] is neither closed here nor broken. *)
Definition writable (w : world) (s : sock) : bool :=
  negb (is_closed w s) && negb (is_broken w s).

(** Record one call in the trace. *)
Definition log (w : world) (e : event) : world :=
  mkWorld (clients w) (closed w) (broken w) (trace w ++ [e]).

(** [s.sendall(data)]; the boolean is [false] when it raises [OSError]. *)
Definition sendall (w : world) (s : sock) (data : bytes) : world * bool :=
  let ok := writable w s in
  (log w (EvSend s data ok), ok).

(** [s.close()]; closing twice is allowed. *)
Definition close (w : world) (s : sock) : world :=
  log (mkWorld (clients w)
               (if is_closed w s then closed w else s :: closed w)
               (broken w)
               (trace w))
      (EvClose s).

Definition set_clients (w : world) (d : Dict.t) : world :=
  mkWorld d (closed w) (broken w) (trace w).

(** The exceptions that can leave a server function. *)
Inductive exn := OSError | UnicodeEncodeError.

(** Bytes of a literal message; a literal has no unencodable character. *)
Definition encode_literal (s : str) : bytes :=
  match Utf8.encode Strict s with
  | Some b => b
  | None => []
  end.

(** ** The messages of server.py *)

Definition DQUOTE : str := [0x22%N].

Definition text_leave (nickname : str) : str :=
  lit "[SYSTEM] [" ++ nickname ++ lit "] 님이 퇴장하셨습니다.".

Definition text_join (nickname : str) : str :=
  lit "[SYSTEM] [" ++ nickname ++ lit "] 님이 입장하셨습니다.".

Definition text_chat (nickname text : str) : str :=
  nickname ++ lit "> " ++ text.

Definition text_no_target (target_name : str) : str :=
  lit "[SYSTEM] 대상 [" ++ target_name ++ lit "] 없음." ++ [NL].

Definition text_whisper (sender content : str) : str :=
  lit "(귓속말) " ++ sender ++ lit "> " ++ content.

Definition text_whisper_sent (target_name content : str) : str :=
  lit "(귓속말 보냄) " ++ target_name ++ lit "에게> " ++ content.

Definition REFUSAL : bytes :=
  encode_literal (lit "[SYSTEM] 닉네임이 비었습니다." ++ [NL]).

Definition WELCOME : bytes :=
  encode_literal (lit "[SYSTEM] 연결됨. " ++ DQUOTE ++ lit "/종료" ++ DQUOTE
                  ++ lit " 종료, " ++ DQUOTE ++ lit "/w 닉 메시지" ++ DQUOTE
                  ++ lit " 귓속말." ++ [NL]).

Definition USAGE : bytes :=
  encode_literal (lit "[SYSTEM] 사용법: /w 닉네임 메시지" ++ [NL]).

Definition QUIT : str := lit "/종료".

Definition WHISPER_PREFIX : str := lit "/w ".

(** The bytes [broadcast] puts on the wire for [text]. *)
Definition wire (text : str) : bytes := Utf8.encode_replace (text ++ [NL]).

(** ** broadcast and remove_client *)

(** [if nickname:] on the result of [pop]. *)
Definition truthy (nickname : option str) : bool :=
  match nickname with
  | Some (_ :: _) => true
  | _ => false
  end.

(** [targets = [s for s in clients.keys() if s is not exclude]] *)
Definition snapshot (w : world) (exclude : option sock) : list sock :=
  filter (fun s => is_not s exclude) (Dict.keys (clients w)).

(** The [for s in targets] loop of [broadcast]; [rm] is [remove_client]. *)
Fixpoint send_each (rm : world -> sock -> option world) (data : bytes)
         (targets : list sock) (w : world) : option world :=
  match targets with
  | [] => Some w
  | s :: rest =>
    match sendall w s data with
    | (w1, true) => send_each rm data rest w1
    | (w1, false) =>
      match rm w1 s with
      | Some w2 => send_each rm data rest w2
      | None => None
      end
    end
  end.

(** [remove_client], with the [broadcast] it calls passed as [bc]. *)
Definition remove_client_with (bc : world -> str -> option sock -> option world)
           (w : world) (s : sock) : option world :=
  let (nickname, d) := Dict.pop s (clients w) in
  let w1 := set_clients w d in
  let w2 := close w1 s in
  match nickname with
  | Some n => if truthy nickname then bc w2 (text_leave n) None else Some w2
  | None => Some w2
  end.

(** [broadcast] and [remove_client] call each other; [fuel] bounds the depth
    of that mutual recursion, and running out of it is [None]. *)
Fixpoint broadcast_fuel (fuel : nat) (w : world) (text : str)
         (exclude : option sock) : option world :=
  match fuel with
  | O => None
  | S fuel' =>
    let data := wire text in
    let targets := snapshot w exclude in
    send_each (remove_client_with (broadcast_fuel fuel')) data targets w
  end.

(** Every nested [broadcast] runs on a dictionary that lost an entry, so the
    number of entries bounds the depth. *)
Definition broadcast (w : world) (text : str) (exclude : option sock) : option world :=
  broadcast_fuel (S (length (clients w))) w text exclude.

Definition remove_client (w : world) (s : sock) : option world :=
  remove_client_with (broadcast_fuel (length (clients w))) w s.

(** ** recv_line *)

(** What one [sock.recv(4096)] call yields: some bytes (none at end of
    stream) or [OSError]. *)
Inductive recv_result :=
| RChunk (chunk : bytes)
| ROSError.

(** [buf.split(b'\n', 1)] when [b'\n' in buf], else [None]. *)
Fixpoint cut_nl (buf : bytes) : option (bytes * bytes) :=
  match buf with
  | [] => None
  | c :: buf' =>
    if Byte.eqb c x0a then Some ([], buf')
    else match cut_nl buf' with
         | Some (line, rest) => Some (c :: line, rest)
         | None => None
         end
  end.

(** The [while True] loop of [recv_line]: [rx] lists the results of the
    coming [recv] calls on the socket (end of stream once it is used up),
    [sock_closed] tells that the socket was closed here, in which case
    [recv] raises.  The result is the returned value and the [recv] results
    not yet consumed; the rest of [buf] after the line is dropped with the
    local variable. *)
Fixpoint recv_line_loop (sock_closed : bool) (buf : bytes)
         (rx : list recv_result) {struct rx} : option str * list recv_result :=
  match cut_nl buf with
  | Some (line, _) =>
    match Utf8.decode Replace line with
    | Some t => (Some t, rx)
    | None => (None, rx)
    end
  | None =>
    if sock_closed then (None, rx)
    else
      match rx with
      | [] => (None, [])
      | ROSError :: rx' => (None, rx')
      | RChunk [] :: rx' => (None, rx')
      | RChunk chunk :: rx' => recv_line_loop sock_closed (buf ++ chunk) rx'
      end
  end.

Definition recv_line (w : world) (s : sock) (rx : list recv_result)
  : option str * list recv_result :=
  recv_line_loop (is_closed w s) [] rx.

(** ** send_whisper *)

(** The lookup loop of [send_whisper]: first entry whose nickname is
    [target_name]. *)
Fixpoint find_by_nickname (d : Dict.t) (target_name : str) : option sock :=
  match d with
  | [] => None
  | (s, name) :: d' =>
    if Str.eqb name target_name then Some s else find_by_nickname d' target_name
  end.

(** The delivery loop of [send_whisper]: [OSError] is swallowed, an encoding
    error is not. *)
Fixpoint whisper_each (w : world) (items : list (sock * str)) : world * option exn :=
  match items with
  | [] => (w, None)
  | (s, msg) :: rest =>
    match Utf8.encode Strict (msg ++ [NL]) with
    | None => (w, Some UnicodeEncodeError)
    | Some data => whisper_each (fst (sendall w s data)) rest
    end
  end.

Definition send_whisper (w : world) (sender target_name content : str)
           (sender_sock : sock) : world * option exn :=
  match find_by_nickname (clients w) target_name with
  | None =>
    match Utf8.encode Strict (text_no_target target_name) with
    | None => (w, Some UnicodeEncodeError)
    | Some data =>
      match sendall w sender_sock data with
      | (w1, true) => (w1, None)
      | (w1, false) => (w1, Some OSError)
      end
    end
  | Some target_sock =>
    whisper_each w [(target_sock, text_whisper sender content);
                    (sender_sock, text_whisper_sent target_name content)]
  end.

(** ** handle_client *)

(** How one pass through the [while True] body ends. *)
Inductive flow := Continue | Break | Raise (e : exn).

(** How [handle_client] ends. *)
Inductive outcome := Returned | Raised (e : exn).

(** The body of the session loop, given the value [recv_line] returned. *)
Definition session_step (w : world) (nickname : str) (s : sock)
           (line : option str) : option (world * flow) :=
  match line with
  | None => Some (w, Break)
  | Some line =>
    let text := Str.strip line in
    match text with
    | [] => Some (w, Continue)
    | _ =>
      if Str.eqb text QUIT then Some (w, Break)
      else if Str.startswith text WHISPER_PREFIX then
        match Str.split SPACE 2 text with
        | [_; target_name; content] =>
          match send_whisper w nickname target_name content s with
          | (w1, None) => Some (w1, Continue)
          | (w1, Some e) => Some (w1, Raise e)
          end
        | _ =>
          match sendall w s USAGE with
          | (w1, true) => Some (w1, Continue)
          | (w1, false) => Some (w1, Raise OSError)
          end
        end
      else
        match broadcast w (text_chat nickname text) None with
        | Some w1 => Some (w1, Continue)
        | None => None
        end
    end
  end.

(** The [while True] loop of [handle_client]; every pass that continues has
    consumed at least one [recv] result, which is what [fuel] counts. *)
Fixpoint session_loop (fuel : nat) (w : world) (nickname : str) (s : sock)
         (rx : list recv_result) : option (world * outcome) :=
  match fuel with
  | O => None
  | S fuel' =>
    let (line, rx') := recv_line w s rx in
    match session_step w nickname s line with
    | Some (w1, Continue) => session_loop fuel' w1 nickname s rx'
    | Some (w1, Break) => Some (w1, Returned)
    | Some (w1, Raise e) => Some (w1, Raised e)
    | None => None
    end
  end.

(** [nickname is None or not nickname.strip()] *)
Definition refused (nickname : option str) : bool :=
  match nickname with
  | None => true
  | Some n => match Str.strip n with [] => true | _ => false end
  end.

(** The [try] block of [handle_client]. *)
Definition handle_client_try (w : world) (s : sock) (rx : list recv_result)
  : option (world * outcome) :=
  let (nickname, rx1) := recv_line w s rx in
  match nickname with
  | Some n =>
    if refused nickname then
      match sendall w s REFUSAL with
      | (w1, true) => Some (close w1 s, Returned)
      | (w1, false) => Some (w1, Raised OSError)
      end
    else
      let nick := Str.strip n in
      let w1 := set_clients w (Dict.set s nick (clients w)) in
      match sendall w1 s WELCOME with
      | (w2, true) =>
        match broadcast w2 (text_join nick) None with
        | Some w3 => session_loop (S (length rx1)) w3 nick s rx1
        | None => None
        end
      | (w2, false) => Some (w2, Raised OSError)
      end
  | None =>
    match sendall w s REFUSAL with
    | (w1, true) => Some (close w1 s, Returned)
    | (w1, false) => Some (w1, Raised OSError)
    end
  end.

(** [handle_client]: the [try] block, then [finally: remove_client(sock)]
    however the block ended. *)
Definition handle_client (w : world) (s : sock) (rx : list recv_result)
  : option (world * outcome) :=
  match handle_client_try w s rx with
  | Some (w1, r) =>
    match remove_client w1 s with
    | Some w2 => Some (w2, r)
    | None => None
    end
  | None => None
  end.

(** ** recv_loop of client.py *)

(** The inner [while b'\n' in buf] loop; [out] collects the printed lines.
    Each pass removes a delimiter from [buf], which [fuel] counts. *)
Fixpoint print_lines (fuel : nat) (buf : bytes) (out : list str) : bytes * list str :=
  match fuel with
  | O => (buf, out)
  | S fuel' =>
    match cut_nl buf with
    | Some (line, rest) =>
      match Utf8.decode Replace line with
      | Some t => print_lines fuel' rest (out ++ [t])
      | None => print_lines fuel' rest out
      end
    | None => (buf, out)
    end
  end.

(** The outer loop of [recv_loop]; the result is what was printed. *)
Fixpoint recv_loop (buf : bytes) (rx : list recv_result) (out : list str) : list str :=
  match rx with
  | [] => out
  | ROSError :: _ => out
  | RChunk [] :: _ => out
  | RChunk chunk :: rx' =>
    let buf1 := buf ++ chunk in
    let (buf2, out') := print_lines (S (length buf1)) buf1 out in
    recv_loop buf2 rx' out'
  end.

(** ** Vocabulary of the statements *)

(** [s] has an entry in the dictionary. *)
Definition registered (w : world) (s : sock) : bool :=
  match Dict.get s (clients w) with
  | Some _ => true
  | None => false
  end.

(** Between [w] and [w'] the calls [evs] were made, in that order. *)
Definition emitted (w w' : world) (evs : list event) : Prop :=
  trace w' = trace w ++ evs.

(** Between [w] and [w'] a [sendall] of [data] to [s] was made and ended as
    [ok] says. *)
Definition sent_with (ok : bool) (w w' : world) (s : sock) (data : bytes) : Prop :=
  exists pre post, emitted w w' (pre ++ EvSend s data ok :: post).

(** Between [w] and [w'] a [sendall] of [data] to [s] succeeded. *)
Definition delivered (w w' : world) (s : sock) (data : bytes) : Prop :=
  sent_with true w w' s data.

(** What any run of the server functions does to the state: the set of
    broken peers is fixed, the trace grows, closed sockets stay closed and
    the dictionary only loses entries. *)
Record evolves (w w' : world) : Prop := {
  ev_broken : broken w' = broken w;
  ev_trace : exists evs, emitted w w' evs;
  ev_closed : forall s, is_closed w s = true -> is_closed w' s = true;
  ev_clients : forall s, Dict.get s (clients w') = None
                         \/ Dict.get s (clients w') = Dict.get s (clients w);
  ev_length : length (clients w') <= length (clients w)
}.

Arguments ev_broken {w w'} _.
Arguments ev_trace {w w'} _.
Arguments ev_closed {w w'} _ s _.
Arguments ev_clients {w w'} _ s.
Arguments ev_length {w w'} _.

(** A run that only drops connections it could not write to: whoever was
    writable still is, and keeps its entry. *)
Definition cascade (w w' : world) : Prop :=
  evolves w w' /\
  forall s, writable w s = true ->
            writable w' s = true /\ Dict.get s (clients w') = Dict.get s (clients w).

(** Between [w] and [w'] a [sendall] of [data] to [s] was made, whatever
    came of it. *)
Definition attempted (w w' : world) (s : sock) (data : bytes) : Prop :=
  exists ok, sent_with ok w w' s data.

(** The state right after [clients.pop(sock, None)] and [sock.close()]. *)
Definition dropped (w : world) (s : sock) : world :=
  close (set_clients w (Dict.remove s (clients w))) s.

(** [rm] takes the socket out of the dictionary and closes it. *)
Definition rm_drops (rm : world -> sock -> option world) : Prop :=
  forall w s w', rm w s = Some w' ->
    evolves w w' /\ registered w' s = false /\ is_closed w' s = true.

(** [rm], called on a socket that cannot be written to, leaves the writable
    ones alone. *)
Definition rm_spares (rm : world -> sock -> option world) : Prop :=
  forall w s w', writable w s = false -> rm w s = Some w' -> cascade w w'.

(** The line a peer sends: the text of [s] and the delimiter. *)
Definition line_of (s : string) : bytes := list_byte_of_string s ++ [x0a].

(** Whoever left the dictionary between [w] and [w'] under a non-empty
    nickname had its departure line delivered to everyone still in it. *)
Definition announces_leavers (w w' : world) : Prop :=
  forall s nick,
    Dict.get s (clients w) = Some nick -> nick <> [] -> registered w' s = false ->
    forall s', registered w' s' = true -> delivered w w' s' (wire (text_leave nick)).

(** Sample states: nobody; alice and bob; bob alone; alice, bob (whose peer
    is gone) and carol. *)
Definition w_empty : world := mkWorld [] [] [] [].

Definition w_alice_bob : world :=
  mkWorld [(1, lit "alice"); (2, lit "bob")] [] [] [].

Definition w_bob : world := mkWorld [(2, lit "bob")] [] [] [].

Definition w_bob_gone : world :=
  mkWorld [(1, lit "alice"); (2, lit "bob"); (3, lit "carol")] [] [2] [].

(** alice and bob, with alice's peer gone. *)
Definition w_alice_gone : world :=
  mkWorld [(1, lit "alice"); (2, lit "bob")] [] [1] [].

(** ** Vocabulary of the further properties *)

(** The dictionary of [w'] is that of [w] with some entries taken out, the
    others in their old order. *)
Definition pruned (w w' : world) : Prop :=
  exists keep : sock -> bool,
    clients w' = filter (fun kv => keep (fst kv)) (clients w).

(** Every [sendall] among [evs] goes to a connection registered in [w] and
    carries either the line of [text] or somebody's departure line. *)
Definition sends_only (w : world) (text : str) (evs : list event) : Prop :=
  forall s d ok, In (EvSend s d ok) evs ->
    registered w s = true /\ (d = wire text \/ exists n, d = wire (text_leave n)).

(** [remove_client], seen from a [broadcast] in progress: it writes only to
    registered connections, and only departure lines. *)
Definition rm_quiet (rm : world -> sock -> option world) : Prop :=
  forall w s w', rm w s = Some w' ->
    exists evs, emitted w w' evs /\
      forall s' d ok, In (EvSend s' d ok) evs ->
        registered w s' = true /\ exists n, d = wire (text_leave n).

(** Where a stream of [recv] results ends: nothing more, an empty result
    (the peer closed) or [OSError]; the value is what is left after it. *)
Definition stream_end (tail : list recv_result) : option (list recv_result) :=
  match tail with
  | [] => Some []
  | RChunk [] :: rx => Some rx
  | ROSError :: rx => Some rx
  | RChunk (_ :: _) :: _ => None
  end.

(** A code point a [str] that came from decoding can hold: below 0x110000
    and not a surrogate. *)
Definition is_scalar (c : N) : bool :=
  (c <? 0x110000)%N && negb (Utf8.is_surrogate c).

Definition wellformed (s : str) : bool := forallb is_scalar s.

(** ** main of client.py, from the nickname check on *)

Fixpoint drop_newlines (s : str) : str :=
  match s with
  | [] => []
  | c :: s' => if N.eqb c NL then drop_newlines s' else s
  end.

(** [s.rstrip('\n')] *)
Definition rstrip_newlines (s : str) : str := rev (drop_newlines (rev s)).

(** How the client ends: after the quit token, after a failed write in the
    loop (reported, then a normal exit), by an exception nobody catches, or
    by [sys.exit(1)]. *)
Inductive client_end := Quit | ConnectionLost | Crashed (e : exn) | Exit1.

(** One pass of the [while True] loop of [main] for the line [input()]
    returned ([line or ''] is [line]).  [alive] tells whether the connection
    still takes a write.  The result is what was written, and how the loop
    ends if it does. *)
Definition client_pass (alive : bool) (line : str) : list bytes * option client_end :=
  let text := rstrip_newlines line in
  match Utf8.encode Strict (text ++ [NL]) with
  | None => ([], Some (Crashed UnicodeEncodeError))
  | Some data =>
    if alive then
      if Str.eqb text QUIT then ([data], Some Quit) else ([data], None)
    else ([], Some ConnectionLost)
  end.

(** The loop: [inputs] are the lines [input()] returns before it raises
    [EOFError], which the loop turns into the quit token; [alive] counts the
    writes the connection still takes.  The pass for the quit token always
    ends the loop ([client_pass_quit_ends]), so the last branch of the first
    case is never taken. *)
Fixpoint client_loop (alive : nat) (inputs : list str) : list bytes * client_end :=
  match inputs with
  | [] =>
    match client_pass (0 <? alive) QUIT with
    | (sent, Some e) => (sent, e)
    | (sent, None) => (sent, Quit)
    end
  | line :: rest =>
    match client_pass (0 <? alive) line with
    | (sent, Some e) => (sent, e)
    | (sent, None) =>
      let (more, e) := client_loop (pred alive) rest in (sent ++ more, e)
    end
  end.

(** [main] once host, port and nickname are known: the nickname check, the
    connection ([connects] tells whether it succeeds), the nickname line, the
    loop.  The result is what was written to the socket and how the client
    ended. *)
Definition client_main (nickname : str) (connects : bool) (alive : nat)
           (inputs : list str) : list bytes * client_end :=
  match Str.strip nickname with
  | [] => ([], Exit1)
  | _ =>
    if connects then
      match Utf8.encode Strict (nickname ++ [NL]) with
      | None => ([], Crashed UnicodeEncodeError)
      | Some data =>
        match alive with
        | O => ([], Crashed OSError)
        | S alive' =>
          let (sent, e) := client_loop alive' inputs in (data :: sent, e)
        end
      end
    else ([], Exit1)
  end.

(** The bytes of the quit line. *)
Definition QUIT_LINE : bytes := encode_literal (QUIT ++ [NL]).

(** ** Vocabulary for recv_loop *)

(** The complete lines of a byte stream, and what follows the last
    delimiter; [cur] is the line begun so far. *)
Fixpoint lines_from (cur : bytes) (b : bytes) : list bytes * bytes :=
  match b with
  | [] => ([], cur)
  | c :: b' =>
    if Byte.eqb c x0a
    then let (ls, r) := lines_from [] b' in (cur :: ls, r)
    else lines_from (cur ++ [c]) b'
  end.

(** What [recv_loop] prints for a list of lines. *)
Definition decode_lines (ls : list bytes) : list str :=
  flat_map (fun l => match Utf8.decode Replace l with
                     | Some t => [t]
                     | None => []
                     end) ls.

(** * Properties *)

(** ** The dictionary *)

Module DictFacts.

Lemma get_remove_same (k : sock) (d : Dict.t) : Dict.get k (Dict.remove k d) = None.
Proof.
  induction d as [|[k' v] d IH]; simpl; [reflexivity|].
  destruct (Nat.eqb k' k) eqn:E; simpl; [exact IH|].
  rewrite E. exact IH.
Qed.

Lemma get_remove_other (k k' : sock) (d : Dict.t) :
  k <> k' -> Dict.get k (Dict.remove k' d) = Dict.get k d.
Proof.
  intros Hne. induction d as [|[k0 v] d IH]; simpl; [reflexivity|].
  destruct (Nat.eqb k0 k') eqn:E; simpl.
  - apply Nat.eqb_eq in E. subst k0.
    destruct (Nat.eqb k' k) eqn:E'; [apply Nat.eqb_eq in E'; congruence | exact IH].
  - destruct (Nat.eqb k0 k); [reflexivity | exact IH].
Qed.

Lemma remove_absent (k : sock) (d : Dict.t) :
  Dict.get k d = None -> Dict.remove k d = d.
Proof.
  induction d as [|[k' v] d IH]; simpl; [reflexivity|].
  destruct (Nat.eqb k' k) eqn:E; simpl; [discriminate|].
  intros H. f_equal. apply IH, H.
Qed.

Lemma length_remove (k : sock) (d : Dict.t) :
  length (Dict.remove k d) <= length d.
Proof.
  induction d as [|[k' v] d IH]; simpl; [lia|].
  destruct (negb (Nat.eqb k' k)); simpl; lia.
Qed.

Lemma length_remove_present (k : sock) (d : Dict.t) (v : str) :
  Dict.get k d = Some v -> length (Dict.remove k d) < length d.
Proof.
  induction d as [|[k' v'] d IH]; simpl; [discriminate|].
  destruct (Nat.eqb k' k) eqn:E; simpl.
  - intros _. pose proof (length_remove k d). lia.
  - intros H. apply IH in H. lia.
Qed.

Lemma get_remove_cases (k k' : sock) (d : Dict.t) :
  Dict.get k (Dict.remove k' d) = None
  \/ Dict.get k (Dict.remove k' d) = Dict.get k d.
Proof.
  destruct (Nat.eq_dec k k') as [->|Hne].
  - left. apply get_remove_same.
  - right. apply get_remove_other, Hne.
Qed.

Lemma in_keys_get (k : sock) (d : Dict.t) :
  In k (Dict.keys d) <-> Dict.get k d <> None.
Proof.
  induction d as [|[k' v] d IH]; simpl.
  - split; [tauto | congruence].
  - destruct (Nat.eqb k' k) eqn:E.
    + apply Nat.eqb_eq in E. split; [discriminate | auto].
    + apply Nat.eqb_neq in E. rewrite <- IH. tauto.
Qed.

Lemma get_set_same (k : sock) (v : str) (d : Dict.t) :
  Dict.get k (Dict.set k v d) = Some v.
Proof.
  induction d as [|[k' v'] d IH]; simpl.
  - now rewrite Nat.eqb_refl.
  - destruct (Nat.eqb k' k) eqn:E; simpl.
    + now rewrite Nat.eqb_refl.
    + now rewrite E.
Qed.

Lemma get_set_other (k k' : sock) (v : str) (d : Dict.t) :
  k <> k' -> Dict.get k (Dict.set k' v d) = Dict.get k d.
Proof.
  intros Hne. induction d as [|[k0 v0] d IH]; simpl.
  - destruct (Nat.eqb k' k) eqn:E; [apply Nat.eqb_eq in E; congruence | reflexivity].
  - destruct (Nat.eqb k0 k') eqn:E; simpl.
    + apply Nat.eqb_eq in E. subst k0.
      destruct (Nat.eqb k' k) eqn:E'; [apply Nat.eqb_eq in E'; congruence | reflexivity].
    + destruct (Nat.eqb k0 k); [reflexivity | exact IH].
Qed.

(** A dictionary has one entry per key, and [set] / [remove] keep it so. *)
Lemma keys_remove_nodup (k : sock) (d : Dict.t) :
  NoDup (Dict.keys d) -> NoDup (Dict.keys (Dict.remove k d)).
Proof.
  induction d as [|[k' v] d IH]; simpl; intros H; [constructor|].
  inversion H as [|? ? Hn Hd]; subst.
  destruct (Nat.eqb k' k) eqn:E; simpl; [apply IH, Hd|].
  constructor; [|apply IH, Hd].
  intros Hin. apply Hn. apply in_keys_get. apply in_keys_get in Hin.
  destruct (get_remove_cases k' k d) as [H0|H0]; congruence.
Qed.

Lemma keys_set_nodup (k : sock) (v : str) (d : Dict.t) :
  NoDup (Dict.keys d) -> NoDup (Dict.keys (Dict.set k v d)).
Proof.
  induction d as [|[k' v'] d IH]; simpl; intros H.
  - constructor; [simpl; tauto | constructor].
  - inversion H as [|? ? Hn Hd]; subst.
    destruct (Nat.eqb k' k) eqn:E; simpl.
    + apply Nat.eqb_eq in E. subst k'. constructor; assumption.
    + apply Nat.eqb_neq in E. constructor; [|apply IH, Hd].
      intros Hin. apply Hn. apply in_keys_get. apply in_keys_get in Hin.
      rewrite get_set_other in Hin by congruence. exact Hin.
Qed.

(** On a dictionary with one entry per key, [remove] takes out exactly the
    first (and only) entry of the key. *)
Lemma remove_first (k : sock) (v : str) (d : Dict.t) :
  ~ In k (Dict.keys d) -> Dict.remove k ((k, v) :: d) = d.
Proof.
  intros H. simpl. rewrite Nat.eqb_refl. simpl.
  apply remove_absent. destruct (Dict.get k d) eqn:E; [|reflexivity].
  exfalso. apply H, in_keys_get. congruence.
Qed.

End DictFacts.

Example decode_ascii : Utf8.decode Strict (list_byte_of_string "/w") = Some [0x2F; 0x77]%N.
Proof. reflexivity. Qed.

Example decode_hangul :
  Utf8.decode Strict (list_byte_of_string "/종료") = Some [0x2F; 0xC885; 0xB8CC]%N.
Proof. reflexivity. Qed.

Example decode_bad_strict : Utf8.decode Strict [xff] = None.
Proof. reflexivity. Qed.

Example decode_bad_replace : Utf8.decode Replace [xff; "a"%byte] = Some [0xFFFD; 0x61]%N.
Proof. reflexivity. Qed.

Example decode_truncated : Utf8.decode Replace [xe2; x82] = Some [0xFFFD]%N.
Proof. reflexivity. Qed.

Example decode_overlong : Utf8.decode Replace [xe0; x80; "a"%byte] = Some [0xFFFD; 0xFFFD; 0x61]%N.
Proof. reflexivity. Qed.

Example encode_hangul :
  Utf8.encode Strict [0x2F; 0xC885; 0xB8CC]%N = Some (list_byte_of_string "/종료").
Proof. reflexivity. Qed.

Example encode_surrogate :
  Utf8.encode Strict [0xD800]%N = None /\ Utf8.encode Replace [0xD800]%N = Some ["?"%byte].
Proof. split; reflexivity. Qed.

Example literals_encode :
  Utf8.encode Strict (lit "[SYSTEM] 닉네임이 비었습니다." ++ [NL]) = Some REFUSAL
  /\ REFUSAL = line_of "[SYSTEM] 닉네임이 비었습니다."
  /\ USAGE = line_of "[SYSTEM] 사용법: /w 닉네임 메시지"
  /\ Utf8.encode Strict (lit "[SYSTEM] 사용법: /w 닉네임 메시지" ++ [NL]) = Some USAGE.
Proof. repeat split; reflexivity. Qed.

Example split_whisper_example :
  Str.split SPACE 2 (lit "/w bob hi there") = [lit "/w"; lit "bob"; lit "hi there"].
Proof. reflexivity. Qed.

Example strip_example : Str.strip (lit "  hi  you ") = lit "hi  you".
Proof. reflexivity. Qed.

(** ** The codec *)

Module Utf8Facts.

(** With [errors='replace'] the decoder has a result for every input. *)
Lemma decode_replace_total (b : bytes) : exists t, Utf8.decode Replace b = Some t.
Proof.
  assert (H : forall n (b : bytes), length b <= n -> exists t, Utf8.decode Replace b = Some t).
  { clear b. induction n as [|n IH]; intros b Hb.
    - destruct b; [exists []; reflexivity | simpl in Hb; lia].
    - assert (Hk : forall r : bytes, length r <= n ->
                exists t, Utf8.on_error Replace (Utf8.decode Replace r) = Some t).
      { intros r Hr. destruct (IH r Hr) as [t Ht]. rewrite Ht. simpl. eauto. }
      assert (Hc : forall c (r : bytes), length r <= n ->
                exists t, option_map (cons c) (Utf8.decode Replace r) = Some t).
      { intros c r Hr. destruct (IH r Hr) as [t Ht]. rewrite Ht. simpl. eauto. }
      assert (He : exists t, Utf8.on_error Replace (Some []) = Some t)
        by (simpl; eauto).
      destruct b as [|b1 r1]; [exists []; reflexivity|].
      simpl in Hb. cbn [Utf8.decode].
      repeat match goal with
             | |- exists t, (if ?c then _ else _) = Some t => destruct c
             | |- exists t, match ?r with [] => _ | _ :: _ => _ end = Some t =>
               destruct r; simpl in Hb
             end;
        first [ exact He | apply Hk; simpl; lia | apply Hc; simpl; lia ].
  }
  apply (H (length b)). lia.
Qed.

(** [encode(..., errors='replace')] never raises; its result is
    [encode_replace]. *)
Lemma encode_replace_total (s : str) :
  Utf8.encode Replace s = Some (Utf8.encode_replace s).
Proof.
  induction s as [|c s IH]; [reflexivity|].
  simpl. rewrite IH. unfold Utf8.encode_replace. simpl.
  destruct (Utf8.encode_cp c); reflexivity.
Qed.

(** A text without surrogates encodes the same way under both policies. *)
Lemma encode_strict_no_surrogate (s : str) :
  forallb (fun c => negb (Utf8.is_surrogate c)) s = true ->
  Utf8.encode Strict s = Some (Utf8.encode_replace s).
Proof.
  induction s as [|c s IH]; [reflexivity|].
  simpl. intros H. apply andb_true_iff in H. destruct H as [Hc Hs].
  rewrite (IH Hs). unfold Utf8.encode_replace. simpl.
  unfold Utf8.encode_cp.
  destruct (N.ltb c 128); [reflexivity|].
  destruct (N.ltb c 2048); [reflexivity|].
  destruct (Utf8.is_surrogate c); [discriminate|].
  destruct (N.ltb c 65536); reflexivity.
Qed.

End Utf8Facts.

(** ** State changes *)

Lemma emitted_nil (w : world) : emitted w w [].
Proof. unfold emitted. now rewrite app_nil_r. Qed.

Lemma emitted_app (w1 w2 w3 : world) (a b : list event) :
  emitted w1 w2 a -> emitted w2 w3 b -> emitted w1 w3 (a ++ b).
Proof. unfold emitted. intros H1 H2. rewrite H2, H1. now rewrite app_assoc. Qed.

Lemma evolves_refl (w : world) : evolves w w.
Proof.
  constructor; auto.
  exists []. apply emitted_nil.
Qed.

Lemma evolves_trans (w1 w2 w3 : world) : evolves w1 w2 -> evolves w2 w3 -> evolves w1 w3.
Proof.
  intros [b1 [e1 t1] c1 d1 l1] [b2 [e2 t2] c2 d2 l2]. constructor.
  - congruence.
  - exists (e1 ++ e2). eapply emitted_app; eassumption.
  - auto.
  - intros s. destruct (d2 s) as [H|H]; [now left|].
    rewrite H. apply d1.
  - lia.
Qed.

Lemma cascade_refl (w : world) : cascade w w.
Proof. split; [apply evolves_refl | auto]. Qed.

Lemma cascade_trans (w1 w2 w3 : world) : cascade w1 w2 -> cascade w2 w3 -> cascade w1 w3.
Proof.
  intros [E1 S1] [E2 S2]. split; [eapply evolves_trans; eassumption|].
  intros s Hs. destruct (S1 s Hs) as [Hw Hg].
  destruct (S2 s Hw) as [Hw' Hg']. split; congruence.
Qed.

Lemma log_cascade (w : world) (e : event) : cascade w (log w e).
Proof.
  split; [constructor; simpl; auto | simpl; auto].
  exists [e]. reflexivity.
Qed.

Lemma log_evolves (w : world) (e : event) : evolves w (log w e).
Proof. apply log_cascade. Qed.

Lemma writable_log (w : world) (e : event) (s : sock) :
  writable (log w e) s = writable w s.
Proof. reflexivity. Qed.

Lemma is_closed_close (w : world) (s s' : sock) :
  is_closed (close w s) s' = Nat.eqb s' s || is_closed w s'.
Proof.
  unfold close, is_closed. simpl.
  destruct (existsb (Nat.eqb s) (closed w)) eqn:E; simpl; [|reflexivity].
  destruct (Nat.eqb s' s) eqn:E'; [|reflexivity].
  apply Nat.eqb_eq in E'. subst. rewrite E. reflexivity.
Qed.

Lemma close_evolves (w : world) (s : sock) : evolves w (close w s).
Proof.
  constructor; simpl; auto.
  - exists [EvClose s]. reflexivity.
  - intros s' H. rewrite is_closed_close, H. apply orb_true_r.
Qed.

Lemma dropped_emitted (w : world) (s : sock) : emitted w (dropped w s) [EvClose s].
Proof. reflexivity. Qed.

Lemma dropped_clients (w : world) (s : sock) :
  clients (dropped w s) = Dict.remove s (clients w).
Proof. reflexivity. Qed.

Lemma dropped_evolves (w : world) (s : sock) : evolves w (dropped w s).
Proof.
  constructor.
  - reflexivity.
  - exists [EvClose s]. reflexivity.
  - intros s' H. unfold dropped. rewrite is_closed_close.
    unfold is_closed in *. simpl. rewrite H. apply orb_true_r.
  - intros s'. apply DictFacts.get_remove_cases.
  - apply DictFacts.length_remove.
Qed.

Lemma dropped_gone (w : world) (s : sock) :
  registered (dropped w s) s = false /\ is_closed (dropped w s) s = true.
Proof.
  split.
  - unfold registered. rewrite dropped_clients, DictFacts.get_remove_same. reflexivity.
  - unfold dropped. rewrite is_closed_close, Nat.eqb_refl. reflexivity.
Qed.

Lemma dropped_cascade (w : world) (s : sock) :
  writable w s = false -> cascade w (dropped w s).
Proof.
  intros Hs. split; [apply dropped_evolves|].
  intros s' Hs'. assert (Hne : s' <> s) by congruence. split.
  - unfold writable in *. unfold dropped. rewrite is_closed_close.
    apply Nat.eqb_neq in Hne. rewrite Hne. exact Hs'.
  - apply DictFacts.get_remove_other, Hne.
Qed.

(** Once a socket cannot be written to, it never can again. *)
Lemma unwritable_stays (w w' : world) (s : sock) :
  evolves w w' -> writable w s = false -> writable w' s = false.
Proof.
  intros Hev Hs. unfold writable, is_broken in *. rewrite (ev_broken Hev).
  apply andb_false_iff in Hs. destruct Hs as [Hs|Hs].
  - apply negb_false_iff in Hs. apply (ev_closed Hev) in Hs. now rewrite Hs.
  - rewrite Hs. apply andb_false_r.
Qed.

Lemma registered_stays_out (w w' : world) (s : sock) :
  evolves w w' -> registered w s = false -> registered w' s = false.
Proof.
  intros Hev Hs. unfold registered in *.
  destruct (ev_clients Hev s) as [-> | ->]; [reflexivity | exact Hs].
Qed.

Lemma registered_before (w w' : world) (s : sock) :
  evolves w w' -> registered w' s = true -> registered w s = true.
Proof.
  intros Hev Hs. destruct (registered w s) eqn:E; [reflexivity|].
  rewrite (registered_stays_out _ _ _ Hev E) in Hs. discriminate.
Qed.

Lemma get_kept (w w' : world) (s : sock) :
  evolves w w' -> registered w' s = true ->
  Dict.get s (clients w') = Dict.get s (clients w).
Proof.
  intros Hev Hs. unfold registered in Hs.
  destruct (ev_clients Hev s) as [H|H]; [rewrite H in Hs; discriminate | exact H].
Qed.

Lemma sent_later (ok : bool) (w w1 w2 : world) (s : sock) (data : bytes) :
  evolves w w1 -> sent_with ok w1 w2 s data -> sent_with ok w w2 s data.
Proof.
  intros Hev (pre & post & H). destruct (ev_trace Hev) as [evs He].
  exists (evs ++ pre), post. rewrite <- app_assoc.
  eapply emitted_app; eassumption.
Qed.

Lemma sent_earlier (ok : bool) (w w1 w2 : world) (s : sock) (data : bytes) :
  sent_with ok w w1 s data -> evolves w1 w2 -> sent_with ok w w2 s data.
Proof.
  intros (pre & post & H) Hev. destruct (ev_trace Hev) as [evs He].
  exists pre, (post ++ evs).
  replace (pre ++ EvSend s data ok :: post ++ evs)
    with ((pre ++ EvSend s data ok :: post) ++ evs)
    by (rewrite <- app_assoc; reflexivity).
  eapply emitted_app; eassumption.
Qed.

Lemma sent_log (ok : bool) (w : world) (s : sock) (data : bytes) :
  sent_with ok w (log w (EvSend s data ok)) s data.
Proof. exists [], []. reflexivity. Qed.

Lemma sent_after (ok : bool) (w w1 w2 : world) (evs : list event) (s : sock)
      (data : bytes) :
  emitted w w1 evs -> sent_with ok w1 w2 s data -> sent_with ok w w2 s data.
Proof.
  intros He (pre & post & H). exists (evs ++ pre), post. rewrite <- app_assoc.
  eapply emitted_app; eassumption.
Qed.

Lemma delivered_later (w w1 w2 : world) (s : sock) (data : bytes) :
  evolves w w1 -> delivered w1 w2 s data -> delivered w w2 s data.
Proof. apply sent_later. Qed.

Lemma delivered_earlier (w w1 w2 : world) (s : sock) (data : bytes) :
  delivered w w1 s data -> evolves w1 w2 -> delivered w w2 s data.
Proof. apply sent_earlier. Qed.

Lemma delivered_log (w : world) (s : sock) (data : bytes) :
  delivered w (log w (EvSend s data true)) s data.
Proof. apply sent_log. Qed.

Lemma attempted_later (w w1 w2 : world) (s : sock) (data : bytes) :
  evolves w w1 -> attempted w1 w2 s data -> attempted w w2 s data.
Proof. intros Hev [ok H]. exists ok. eapply sent_later; eassumption. Qed.

Lemma attempted_earlier (w w1 w2 : world) (s : sock) (data : bytes) :
  attempted w w1 s data -> evolves w1 w2 -> attempted w w2 s data.
Proof. intros [ok H] Hev. exists ok. eapply sent_earlier; eassumption. Qed.

(** ** broadcast and remove_client: what every run guarantees *)

Lemma remove_client_with_eq (bc : world -> str -> option sock -> option world)
      (w : world) (s : sock) :
  remove_client_with bc w s =
  match Dict.get s (clients w) with
  | Some (c :: n) => bc (dropped w s) (text_leave (c :: n)) None
  | _ => Some (dropped w s)
  end.
Proof.
  unfold remove_client_with, Dict.pop, dropped.
  destruct (Dict.get s (clients w)) as [[|c n]|]; reflexivity.
Qed.

Section SendEach.

Variable rm : world -> sock -> option world.

Lemma send_each_cons (data : bytes) (t : sock) (rest : list sock) (w : world) :
  send_each rm data (t :: rest) w =
  if writable w t then send_each rm data rest (log w (EvSend t data true))
  else match rm (log w (EvSend t data false)) t with
       | Some w2 => send_each rm data rest w2
       | None => None
       end.
Proof. simpl. unfold sendall. destruct (writable w t); reflexivity. Qed.

Lemma send_each_evolves (data : bytes) (targets : list sock) :
  rm_drops rm -> forall w w', send_each rm data targets w = Some w' -> evolves w w'.
Proof.
  intros Hrm. induction targets as [|t rest IH]; intros w w' H.
  - injection H as <-. apply evolves_refl.
  - rewrite send_each_cons in H. destruct (writable w t).
    + eapply evolves_trans; [apply log_evolves | eapply IH, H].
    + destruct (rm _ t) as [w2|] eqn:E; [|discriminate].
      eapply evolves_trans; [apply log_evolves|].
      eapply evolves_trans; [apply (Hrm _ _ _ E) | eapply IH, H].
Qed.

Lemma send_each_cascade (data : bytes) (targets : list sock) :
  rm_spares rm -> forall w w', send_each rm data targets w = Some w' -> cascade w w'.
Proof.
  intros Hrm. induction targets as [|t rest IH]; intros w w' H.
  - injection H as <-. apply cascade_refl.
  - rewrite send_each_cons in H. destruct (writable w t) eqn:Ht.
    + eapply cascade_trans; [apply log_cascade | eapply IH, H].
    + destruct (rm _ t) as [w2|] eqn:E; [|discriminate].
      eapply cascade_trans; [apply log_cascade|].
      eapply cascade_trans; [|eapply IH, H].
      eapply Hrm; [|exact E]. exact Ht.
Qed.

(** Every target that cannot be written to is dropped and closed. *)
Lemma send_each_drops (data : bytes) (targets : list sock) :
  rm_drops rm -> forall w w' s,
    send_each rm data targets w = Some w' ->
    In s targets -> writable w s = false ->
    registered w' s = false /\ is_closed w' s = true.
Proof.
  intros Hrm. induction targets as [|t rest IH]; intros w w' s H Hin Hs;
    [contradiction|].
  rewrite send_each_cons in H.
  destruct (Nat.eq_dec t s) as [->|Hne].
  - rewrite Hs in H. destruct (rm _ s) as [w2|] eqn:E; [|discriminate].
    destruct (Hrm _ _ _ E) as (_ & Hreg & Hcl).
    pose proof (send_each_evolves data rest Hrm _ _ H) as Hev.
    split; [eapply registered_stays_out; eassumption | apply (ev_closed Hev), Hcl].
  - destruct Hin as [?|Hin]; [contradiction|].
    destruct (writable w t) eqn:Ht.
    + eapply IH; eauto.
    + destruct (rm _ t) as [w2|] eqn:E; [|discriminate].
      destruct (Hrm _ _ _ E) as (Hev & _ & _).
      eapply IH; eauto. eapply unwritable_stays; [exact Hev|]. exact Hs.
Qed.

(** A target that can be written to gets the data. *)
Lemma send_each_writable (data : bytes) (targets : list sock) :
  rm_drops rm -> rm_spares rm -> forall w w' s,
    send_each rm data targets w = Some w' ->
    In s targets -> writable w s = true -> delivered w w' s data.
Proof.
  intros Hd Hrm. induction targets as [|t rest IH]; intros w w' s H Hin Hs;
    [contradiction|].
  rewrite send_each_cons in H.
  destruct (Nat.eq_dec t s) as [->|Hne].
  - rewrite Hs in H. eapply delivered_earlier; [apply delivered_log|].
    eapply send_each_evolves; eassumption.
  - destruct Hin as [?|Hin]; [contradiction|].
    destruct (writable w t) eqn:Ht.
    + eapply delivered_later; [apply log_evolves|]. eapply IH; eauto.
    + destruct (rm _ t) as [w2|] eqn:E; [|discriminate].
      assert (Hc : cascade w w2).
      { eapply cascade_trans; [apply log_cascade|]. eapply Hrm; [|exact E]. exact Ht. }
      eapply delivered_later; [apply Hc|].
      eapply IH; eauto. apply Hc, Hs.
Qed.

(** A target that is still in the dictionary at the end got the data. *)
Lemma send_each_survivor (data : bytes) (targets : list sock) :
  rm_drops rm -> forall w w' s,
    send_each rm data targets w = Some w' ->
    In s targets -> registered w' s = true -> delivered w w' s data.
Proof.
  intros Hrm. induction targets as [|t rest IH]; intros w w' s H Hin Hs;
    [contradiction|].
  rewrite send_each_cons in H.
  destruct (writable w t) eqn:Ht.
  - destruct (Nat.eq_dec t s) as [->|Hne].
    + eapply delivered_earlier; [apply delivered_log|].
      eapply send_each_evolves; eassumption.
    + destruct Hin as [?|Hin]; [contradiction|].
      eapply delivered_later; [apply log_evolves|]. eapply IH; eauto.
  - destruct (rm _ t) as [w2|] eqn:E; [|discriminate].
    destruct (Hrm _ _ _ E) as (Hev & Hreg & _).
    pose proof (send_each_evolves data rest Hrm _ _ H) as Hev'.
    destruct (Nat.eq_dec t s) as [->|Hne].
    + rewrite (registered_stays_out _ _ _ Hev' Hreg) in Hs. discriminate.
    + destruct Hin as [?|Hin]; [contradiction|].
      eapply delivered_later; [eapply evolves_trans; [apply log_evolves | exact Hev]|].
      eapply IH; eauto.
Qed.

(** Every target is tried. *)
Lemma send_each_attempted (data : bytes) (targets : list sock) :
  rm_drops rm -> forall w w' s,
    send_each rm data targets w = Some w' -> In s targets -> attempted w w' s data.
Proof.
  intros Hrm. induction targets as [|t rest IH]; intros w w' s H Hin;
    [contradiction|].
  rewrite send_each_cons in H.
  destruct (Nat.eq_dec t s) as [->|Hne].
  - destruct (writable w s).
    + eapply attempted_earlier; [exists true; apply sent_log|].
      eapply send_each_evolves; eassumption.
    + destruct (rm _ s) as [w2|] eqn:E; [|discriminate].
      eapply attempted_earlier; [exists false; apply sent_log|].
      eapply evolves_trans; [apply (Hrm _ _ _ E)|].
      eapply send_each_evolves; eassumption.
  - destruct Hin as [?|Hin]; [contradiction|].
    destruct (writable w t).
    + eapply attempted_later; [apply log_evolves|]. eapply IH; eauto.
    + destruct (rm _ t) as [w2|] eqn:E; [|discriminate].
      eapply attempted_later;
        [eapply evolves_trans; [apply log_evolves | apply (Hrm _ _ _ E)]|].
      eapply IH; eauto.
Qed.

(** When every target can be written to, the loop is one successful
    [sendall] per target, in order, and nothing else. *)
Lemma send_each_all_writable (data : bytes) (targets : list sock) (w : world) :
  (forall s, In s targets -> writable w s = true) ->
  send_each rm data targets w =
  Some (fold_left (fun w0 s => log w0 (EvSend s data true)) targets w).
Proof.
  revert w. induction targets as [|t rest IH]; intros w H; [reflexivity|].
  rewrite send_each_cons, (H t) by (left; reflexivity).
  simpl. apply IH. intros s Hs. rewrite writable_log. apply H. now right.
Qed.

End SendEach.

Section RemoveClientWith.

Variable bc : world -> str -> option sock -> option world.

Hypothesis bc_cascade : forall w text ex w', bc w text ex = Some w' -> cascade w w'.

Lemma remove_client_with_drops : rm_drops (remove_client_with bc).
Proof.
  intros w s w' H. rewrite remove_client_with_eq in H.
  destruct (dropped_gone w s) as [Hreg Hcl].
  assert (Hbase : forall w'', evolves (dropped w s) w'' ->
            evolves w w'' /\ registered w'' s = false /\ is_closed w'' s = true).
  { intros w'' Hev. split; [eapply evolves_trans; [apply dropped_evolves | exact Hev]|].
    split; [eapply registered_stays_out; eassumption | apply (ev_closed Hev), Hcl]. }
  destruct (Dict.get s (clients w)) as [[|c n]|].
  - injection H as <-. apply Hbase, evolves_refl.
  - apply Hbase. eapply bc_cascade, H.
  - injection H as <-. apply Hbase, evolves_refl.
Qed.

Lemma remove_client_with_spares : rm_spares (remove_client_with bc).
Proof.
  intros w s w' Hs H. rewrite remove_client_with_eq in H.
  pose proof (dropped_cascade w s Hs) as Hc.
  destruct (Dict.get s (clients w)) as [[|c n]|].
  - injection H as <-. exact Hc.
  - eapply cascade_trans; [exact Hc | eapply bc_cascade, H].
  - injection H as <-. exact Hc.
Qed.

End RemoveClientWith.

Lemma broadcast_fuel_cascade (fuel : nat) :
  forall w text ex w', broadcast_fuel fuel w text ex = Some w' -> cascade w w'.
Proof.
  induction fuel as [|n IH]; intros w text ex w' H; [discriminate|].
  simpl in H. eapply send_each_cascade; [|exact H].
  apply remove_client_with_spares, IH.
Qed.

Lemma broadcast_fuel_evolves (fuel : nat) (w : world) (text : str)
      (ex : option sock) (w' : world) :
  broadcast_fuel fuel w text ex = Some w' -> evolves w w'.
Proof. intros H. eapply broadcast_fuel_cascade, H. Qed.

Lemma remove_client_fuel_drops (fuel : nat) :
  rm_drops (remove_client_with (broadcast_fuel fuel)).
Proof. apply remove_client_with_drops, broadcast_fuel_cascade. Qed.

Lemma remove_client_fuel_spares (fuel : nat) :
  rm_spares (remove_client_with (broadcast_fuel fuel)).
Proof. apply remove_client_with_spares, broadcast_fuel_cascade. Qed.

(** *** Termination: the number of entries is enough fuel *)

Lemma send_each_total (rm : world -> sock -> option world) (k : nat) :
  rm_drops rm ->
  (forall w s, length (clients w) <= k -> exists w', rm w s = Some w') ->
  forall data targets w, length (clients w) <= k ->
    exists w', send_each rm data targets w = Some w'.
Proof.
  intros Hd Ht data targets. induction targets as [|t rest IH]; intros w Hk.
  - eexists. reflexivity.
  - rewrite send_each_cons. destruct (writable w t).
    + apply IH. exact Hk.
    + destruct (Ht (log w (EvSend t data false)) t Hk) as [w2 E]. rewrite E.
      apply IH. destruct (Hd _ _ _ E) as (Hev & _). pose proof (ev_length Hev).
      simpl in *. lia.
Qed.

Lemma broadcast_fuel_total (fuel : nat) :
  forall w text ex, length (clients w) < fuel ->
    exists w', broadcast_fuel fuel w text ex = Some w'.
Proof.
  induction fuel as [|n IH]; intros w text ex Hlen; [lia|].
  simpl. apply send_each_total with (k := n); [apply remove_client_fuel_drops | | lia].
  intros w0 s Hk. rewrite remove_client_with_eq.
  destruct (Dict.get s (clients w0)) as [[|c nick]|] eqn:E; eauto.
  apply IH. rewrite dropped_clients.
  pose proof (DictFacts.length_remove_present s (clients w0) _ E). lia.
Qed.

(** [broadcast] always returns. *)
Lemma broadcast_total (w : world) (text : str) (ex : option sock) :
  exists w', broadcast w text ex = Some w'.
Proof. apply broadcast_fuel_total. lia. Qed.

(** [remove_client] always returns. *)
Lemma remove_client_total (w : world) (s : sock) :
  exists w', remove_client w s = Some w'.
Proof.
  unfold remove_client. rewrite remove_client_with_eq.
  destruct (Dict.get s (clients w)) as [[|c nick]|] eqn:E; eauto.
  apply broadcast_fuel_total. rewrite dropped_clients.
  apply (DictFacts.length_remove_present s (clients w) _ E).
Qed.

(** More fuel does not change a result. *)
Lemma send_each_mono (rm rm' : world -> sock -> option world) :
  (forall w s w', rm w s = Some w' -> rm' w s = Some w') ->
  forall data targets w w',
    send_each rm data targets w = Some w' -> send_each rm' data targets w = Some w'.
Proof.
  intros Hrm data targets. induction targets as [|t rest IH]; intros w w' H;
    [exact H|].
  rewrite send_each_cons in *. destruct (writable w t); [apply IH, H|].
  destruct (rm _ t) as [w2|] eqn:E; [|discriminate].
  rewrite (Hrm _ _ _ E). apply IH, H.
Qed.

Lemma broadcast_fuel_mono (n : nat) :
  forall m w text ex w', n <= m ->
    broadcast_fuel n w text ex = Some w' -> broadcast_fuel m w text ex = Some w'.
Proof.
  induction n as [|n IH]; intros m w text ex w' Hle H; [discriminate|].
  destruct m as [|m]; [lia|]. simpl in *.
  eapply send_each_mono; [|exact H].
  intros w0 s w0' H0. rewrite remove_client_with_eq in *.
  destruct (Dict.get s (clients w0)) as [[|c nick]|]; auto.
  apply IH; [lia | exact H0].
Qed.

Lemma broadcast_evolves (w : world) (text : str) (ex : option sock) (w' : world) :
  broadcast w text ex = Some w' -> evolves w w'.
Proof. apply broadcast_fuel_evolves. Qed.

Lemma broadcast_cascade (w : world) (text : str) (ex : option sock) (w' : world) :
  broadcast w text ex = Some w' -> cascade w w'.
Proof. apply broadcast_fuel_cascade. Qed.

(** [remove_client] in terms of [broadcast]. *)
Lemma remove_client_eq (w : world) (s : sock) :
  remove_client w s =
  match Dict.get s (clients w) with
  | Some (c :: n) => broadcast (dropped w s) (text_leave (c :: n)) None
  | _ => Some (dropped w s)
  end.
Proof.
  unfold remove_client. rewrite remove_client_with_eq.
  destruct (Dict.get s (clients w)) as [[|c nick]|] eqn:E; try reflexivity.
  pose proof (DictFacts.length_remove_present s (clients w) _ E) as Hlt.
  rewrite <- dropped_clients in Hlt.
  destruct (broadcast_total (dropped w s) (text_leave (c :: nick)) None) as [w' Hw'].
  rewrite Hw'. eapply broadcast_fuel_mono; [|exact Hw']. lia.
Qed.

Lemma remove_client_drops : rm_drops remove_client.
Proof.
  intros w s w' H. apply (remove_client_fuel_drops (length (clients w)) w s w' H).
Qed.

(** *** Who gets what *)

Lemma in_snapshot (w : world) (ex : option sock) (s : sock) :
  In s (snapshot w ex) <-> registered w s = true /\ is_not s ex = true.
Proof.
  unfold snapshot. rewrite filter_In, DictFacts.in_keys_get. unfold registered.
  destruct (Dict.get s (clients w)); intuition congruence.
Qed.

Lemma in_snapshot_all (w : world) (s : sock) :
  In s (snapshot w None) <-> registered w s = true.
Proof. rewrite in_snapshot. simpl. tauto. Qed.

Lemma announces_same_clients (w w' : world) :
  clients w' = clients w -> announces_leavers w w'.
Proof.
  intros Hc s nick Hg _ Hreg. unfold registered in Hreg. rewrite Hc, Hg in Hreg.
  discriminate.
Qed.

Lemma announces_trans (w w1 w2 : world) :
  evolves w w1 -> evolves w1 w2 ->
  announces_leavers w w1 -> announces_leavers w1 w2 -> announces_leavers w w2.
Proof.
  intros E1 E2 A1 A2 s nick Hg Hn Hout s' Hs'.
  destruct (registered w1 s) eqn:R1.
  - eapply delivered_later; [exact E1|].
    eapply A2; eauto. rewrite (get_kept _ _ _ E1 R1). exact Hg.
  - eapply delivered_earlier; [|exact E2].
    eapply A1; eauto. eapply registered_before; eassumption.
Qed.

Lemma send_each_announces (rm : world -> sock -> option world) :
  rm_drops rm ->
  (forall w s w', rm w s = Some w' -> announces_leavers w w') ->
  forall data targets w w',
    send_each rm data targets w = Some w' -> announces_leavers w w'.
Proof.
  intros Hd Ha data targets. induction targets as [|t rest IH]; intros w w' H.
  - injection H as <-. now apply announces_same_clients.
  - rewrite send_each_cons in H. destruct (writable w t).
    + eapply announces_trans; [apply log_evolves | | | apply IH, H].
      * eapply send_each_evolves; eassumption.
      * now apply announces_same_clients.
    + destruct (rm _ t) as [w2|] eqn:E; [|discriminate].
      destruct (Hd _ _ _ E) as (Hev & _).
      eapply announces_trans; [apply log_evolves | | | ].
      * eapply evolves_trans; [exact Hev | eapply send_each_evolves; eassumption].
      * now apply announces_same_clients.
      * eapply announces_trans; [exact Hev | | apply (Ha _ _ _ E) | apply IH, H].
        eapply send_each_evolves; eassumption.
Qed.

Lemma broadcast_fuel_survivor (fuel : nat) (w : world) (text : str)
      (ex : option sock) (w' : world) (s : sock) :
  broadcast_fuel fuel w text ex = Some w' ->
  is_not s ex = true -> registered w' s = true -> delivered w w' s (wire text).
Proof.
  destruct fuel as [|n]; [discriminate|]. simpl. intros H Hex Hs.
  eapply send_each_survivor; [apply remove_client_fuel_drops | exact H | | exact Hs].
  apply in_snapshot. split; [|exact Hex].
  eapply registered_before; [|exact Hs].
  eapply send_each_evolves; [apply remove_client_fuel_drops | exact H].
Qed.

Lemma remove_client_with_announces (bc : world -> str -> option sock -> option world) :
  (forall w text ex w', bc w text ex = Some w' -> cascade w w') ->
  (forall w text ex w', bc w text ex = Some w' -> announces_leavers w w') ->
  (forall w text w' s, bc w text None = Some w' -> registered w' s = true ->
                       delivered w w' s (wire text)) ->
  forall w s w', remove_client_with bc w s = Some w' -> announces_leavers w w'.
Proof.
  intros Hc Ha Hs w s w' H s0 nick Hg Hn Hout s' Hs'.
  rewrite remove_client_with_eq in H.
  assert (Hother : s0 <> s -> Dict.get s0 (clients (dropped w s)) = Some nick).
  { intros Hne. rewrite dropped_clients, DictFacts.get_remove_other; assumption. }
  destruct (Dict.get s (clients w)) as [[|c n]|] eqn:E.
  - injection H as <-. destruct (Nat.eq_dec s0 s) as [->|Hne]; [congruence|].
    unfold registered in Hout. rewrite (Hother Hne) in Hout. discriminate.
  - eapply delivered_later; [apply (dropped_evolves w s)|].
    destruct (Nat.eq_dec s0 s) as [->|Hne].
    + assert (nick = c :: n) by congruence. subst nick. eapply Hs; eassumption.
    + eapply (Ha _ _ _ _ H); eauto.
  - injection H as <-. destruct (Nat.eq_dec s0 s) as [->|Hne]; [congruence|].
    unfold registered in Hout. rewrite (Hother Hne) in Hout. discriminate.
Qed.

Lemma broadcast_fuel_announces (fuel : nat) :
  forall w text ex w', broadcast_fuel fuel w text ex = Some w' -> announces_leavers w w'.
Proof.
  induction fuel as [|n IH]; intros w text ex w' H; [discriminate|].
  simpl in H. eapply send_each_announces; [apply remove_client_fuel_drops | | exact H].
  apply remove_client_with_announces.
  - apply broadcast_fuel_cascade.
  - exact IH.
  - intros w0 text0 w0' s H0 Hs. eapply broadcast_fuel_survivor; eauto.
Qed.

(** [broadcast], summed up: it returns; whoever could not be written to is
    dropped, closed and announced as gone; every target is tried, and the
    writable ones get the line. *)
Lemma broadcast_spec (w : world) (text : str) (ex : option sock) :
  exists w', broadcast w text ex = Some w' /\
    cascade w w' /\ announces_leavers w w' /\
    (forall s, In s (snapshot w ex) -> attempted w w' s (wire text)) /\
    (forall s, In s (snapshot w ex) -> writable w s = true ->
               delivered w w' s (wire text)) /\
    (forall s, In s (snapshot w ex) -> writable w s = false ->
               registered w' s = false /\ is_closed w' s = true).
Proof.
  destruct (broadcast_total w text ex) as [w' H]. exists w'.
  split; [exact H|]. split; [eapply broadcast_cascade, H|].
  split; [eapply broadcast_fuel_announces, H|].
  unfold broadcast in H. simpl in H.
  pose proof (remove_client_fuel_drops (length (clients w))) as Hd.
  pose proof (remove_client_fuel_spares (length (clients w))) as Hsp.
  split; [|split]; intros s Hin.
  - eapply send_each_attempted; eassumption.
  - intros Hs. eapply send_each_writable; eassumption.
  - intros Hs. eapply send_each_drops; eassumption.
Qed.

(** ** recv_line *)

Lemma cut_nl_some (line rest : bytes) :
  ~ In x0a line -> cut_nl (line ++ x0a :: rest) = Some (line, rest).
Proof.
  induction line as [|c line IH]; intros Hn; [reflexivity|].
  simpl. destruct (Byte.eqb c x0a) eqn:E.
  - apply Byte.byte_dec_bl in E. subst. exfalso. apply Hn. now left.
  - rewrite IH; [reflexivity|]. intros H. apply Hn. now right.
Qed.

Lemma cut_nl_none (buf : bytes) : ~ In x0a buf -> cut_nl buf = None.
Proof.
  induction buf as [|c buf IH]; intros Hn; [reflexivity|].
  simpl. destruct (Byte.eqb c x0a) eqn:E.
  - apply Byte.byte_dec_bl in E. subst. exfalso. apply Hn. now left.
  - rewrite IH; [reflexivity|]. intros H. apply Hn. now right.
Qed.

Lemma cut_nl_inv (buf line rest : bytes) :
  cut_nl buf = Some (line, rest) -> buf = line ++ x0a :: rest /\ ~ In x0a line.
Proof.
  revert line. induction buf as [|c buf IH]; intros line H; [discriminate|].
  simpl in H. destruct (Byte.eqb c x0a) eqn:E.
  - apply Byte.byte_dec_bl in E. subst. injection H as <- <-. split; [reflexivity | intros []].
  - destruct (cut_nl buf) as [[l r]|]; [|discriminate].
    injection H as <- <-. destruct (IH l eq_refl) as [-> Hn]. split; [reflexivity|].
    intros [->|Hin]; [|contradiction].
    rewrite (Byte.byte_dec_lb eq_refl) in E. discriminate.
Qed.

(** A call that returns a line has used up at least one [recv] result. *)
Lemma recv_line_loop_consumes (sock_closed : bool) (rx : list recv_result) :
  forall buf r rx',
    recv_line_loop sock_closed buf rx = (r, rx') ->
    length rx' <= length rx /\
    (cut_nl buf = None -> r <> None -> length rx' < length rx).
Proof.
  induction rx as [|x rx IH]; intros buf r rx' H.
  - simpl in H. destruct (cut_nl buf) as [[line rest]|].
    + destruct (Utf8.decode Replace line); injection H as <- <-;
        (split; [simpl; lia | discriminate]).
    + destruct sock_closed; injection H as <- <-; (split; [simpl; lia | congruence]).
  - cbn [recv_line_loop] in H. destruct (cut_nl buf) as [[line rest]|] eqn:Ec.
    + destruct (Utf8.decode Replace line); injection H as <- <-;
        (split; [simpl; lia | discriminate]).
    + destruct sock_closed; [injection H as <- <-; split; [simpl; lia | congruence]|].
      destruct x as [[|c chunk]|].
      * injection H as <- <-. split; [simpl; lia | congruence].
      * apply IH in H. destruct H as [H _]. simpl. split; [lia | intros; lia].
      * injection H as <- <-. split; [simpl; lia | congruence].
Qed.

Lemma recv_line_consumes (w : world) (s : sock) (rx rx' : list recv_result) (t : str) :
  recv_line w s rx = (Some t, rx') -> length rx' < length rx.
Proof.
  intros H. apply recv_line_loop_consumes in H. destruct H as [_ H].
  apply H; [reflexivity | discriminate].
Qed.

(** A line is only returned from a socket that is still open. *)
Lemma recv_line_open (w : world) (s : sock) (rx rx' : list recv_result) (t : str) :
  recv_line w s rx = (Some t, rx') -> is_closed w s = false.
Proof.
  unfold recv_line. destruct (is_closed w s); [|reflexivity].
  destruct rx; simpl; discriminate.
Qed.

(** ** send_whisper and the session loop *)

Lemma whisper_each_evolves (items : list (sock * str)) :
  forall w, cascade w (fst (whisper_each w items)) /\
            clients (fst (whisper_each w items)) = clients w.
Proof.
  induction items as [|[s msg] rest IH]; intros w; simpl.
  - split; [apply cascade_refl | reflexivity].
  - destruct (Utf8.encode Strict (msg ++ [NL])) as [data|]; simpl.
    + destruct (IH (log w (EvSend s data (writable w s)))) as [Hc He]. split.
      * eapply cascade_trans; [apply log_cascade | exact Hc].
      * rewrite He. reflexivity.
    + split; [apply cascade_refl | reflexivity].
Qed.

Lemma send_whisper_cascade (w : world) (sender target_name content : str) (s : sock) :
  cascade w (fst (send_whisper w sender target_name content s)) /\
  clients (fst (send_whisper w sender target_name content s)) = clients w.
Proof.
  unfold send_whisper. destruct (find_by_nickname (clients w) target_name).
  - apply whisper_each_evolves.
  - destruct (Utf8.encode Strict (text_no_target target_name)); simpl.
    + unfold sendall. destruct (writable w s); simpl;
        (split; [apply log_cascade | reflexivity]).
    + split; [apply cascade_refl | reflexivity].
Qed.

(** One pass of the session loop always completes, and never touches a
    connection that could be written to. *)
Lemma session_step_total (w : world) (nickname : str) (s : sock) (line : option str) :
  exists w' f, session_step w nickname s line = Some (w', f) /\ cascade w w'.
Proof.
  unfold session_step. destruct line as [line|];
    [|do 2 eexists; split; [reflexivity | apply cascade_refl]].
  destruct (Str.strip line) as [|c text];
    [do 2 eexists; split; [reflexivity | apply cascade_refl]|].
  destruct (Str.eqb (c :: text) QUIT);
    [do 2 eexists; split; [reflexivity | apply cascade_refl]|].
  destruct (Str.startswith (c :: text) WHISPER_PREFIX).
  - assert (Hu : exists w' f,
               match sendall w s USAGE with
               | (w1, true) => Some (w1, Continue)
               | (w1, false) => Some (w1, Raise OSError)
               end = Some (w', f) /\ cascade w w').
    { unfold sendall. destruct (writable w s);
        do 2 eexists; (split; [reflexivity | apply log_cascade]). }
    destruct (Str.split SPACE 2 (c :: text)) as [|p0 [|p1 [|p2 [|p3 ps]]]]; try exact Hu.
    pose proof (send_whisper_cascade w nickname p1 p2 s) as [Hc _].
    destruct (send_whisper w nickname p1 p2 s) as [w1 [e|]];
      do 2 eexists; (split; [reflexivity | exact Hc]).
  - destruct (broadcast_total w (text_chat nickname (c :: text)) None) as [w1 H].
    rewrite H. do 2 eexists. split; [reflexivity | eapply broadcast_cascade, H].
Qed.

Lemma session_loop_total (fuel : nat) :
  forall w nickname s rx, length rx < fuel ->
    exists w' o, session_loop fuel w nickname s rx = Some (w', o) /\ cascade w w'.
Proof.
  induction fuel as [|n IH]; intros w nickname s rx Hlen; [lia|].
  simpl. destruct (recv_line w s rx) as [line rx'] eqn:Er.
  destruct (session_step_total w nickname s line) as (w1 & f & Hstep & Hc).
  rewrite Hstep. destruct f as [| |e].
  - destruct line as [t|].
    + apply recv_line_consumes in Er.
      destruct (IH w1 nickname s rx') as (w' & o & H & Hc'); [lia|].
      exists w', o. split; [exact H | eapply cascade_trans; eassumption].
    + simpl in Hstep. discriminate.
  - exists w1, Returned. split; [reflexivity | exact Hc].
  - exists w1, (Raised e). split; [reflexivity | exact Hc].
Qed.

(** [handle_client] always comes to an end. *)
Lemma handle_client_total (w : world) (s : sock) (rx : list recv_result) :
  exists w' o, handle_client w s rx = Some (w', o).
Proof.
  assert (Hfin : forall w1 (o : outcome), exists w' o',
             match remove_client w1 s with
             | Some w2 => Some (w2, o)
             | None => None
             end = Some (w', o')).
  { intros w1 o. destruct (remove_client_total w1 s) as [w2 H]. rewrite H. eauto. }
  assert (Href : exists w' o',
             match
               match sendall w s REFUSAL with
               | (w1, true) => Some (close w1 s, Returned)
               | (w1, false) => Some (w1, Raised OSError)
               end
             with
             | Some (w1, r) =>
               match remove_client w1 s with
               | Some w2 => Some (w2, r)
               | None => None
               end
             | None => None
             end = Some (w', o')).
  { unfold sendall. destruct (writable w s); apply Hfin. }
  unfold handle_client, handle_client_try.
  destruct (recv_line w s rx) as [[n|] rx1] eqn:Er; [|exact Href].
  destruct (refused (Some n)); [exact Href|].
  unfold sendall. match goal with |- context [writable ?w0 s] => destruct (writable w0 s) end;
    [|apply Hfin].
  match goal with |- context [broadcast ?w0 ?t None] =>
    destruct (broadcast_total w0 t None) as [w3 H3]; rewrite H3 end.
  destruct (session_loop_total (S (length rx1)) w3 (Str.strip n) s rx1) as (w4 & o & H4 & _);
    [lia|].
  rewrite H4. apply Hfin.
Qed.

(** * The claims *)

(** ** C1: a chat line is broadcast to every registered connection *)

(** C1, counterexample.  alice (socket 1) and bob (socket 2) are registered
    and alice sends [hello]: the line [alice> hello] is delivered to bob and
    also to alice herself, so the sender is not left out. *)
Lemma chat_line_echoed_to_sender :
  exists w',
    session_step w_alice_bob (lit "alice") 1 (Some (lit "hello")) = Some (w', Continue)
    /\ trace w' = [EvSend 1 (line_of "alice> hello") true;
                   EvSend 2 (line_of "alice> hello") true]
    /\ delivered w_alice_bob w' 1 (wire (text_chat (lit "alice") (lit "hello"))).
Proof.
  eexists. split; [vm_compute; reflexivity|]. split; [reflexivity|].
  exists [], [EvSend 2 (line_of "alice> hello") true]. reflexivity.
Qed.

(** C1, as the code has it.  When a registered connection [a] sends a line
    that is non-empty after stripping, is not the quit token and does not
    start with the whisper prefix, the pass ends normally and the line
    ["<nickname>> <text>"] is passed to [sendall] for every registered
    connection; every registered connection that can be written to receives
    it, the sender [a] included. *)
Theorem chat_line_reaches_every_registered
        (w : world) (nickname : str) (a : sock) (line : str) :
  Dict.get a (clients w) = Some nickname ->
  Str.strip line <> [] ->
  Str.eqb (Str.strip line) QUIT = false ->
  Str.startswith (Str.strip line) WHISPER_PREFIX = false ->
  exists w',
    session_step w nickname a (Some line) = Some (w', Continue) /\
    (forall s, registered w s = true ->
               attempted w w' s (wire (text_chat nickname (Str.strip line)))) /\
    (forall s, registered w s = true -> writable w s = true ->
               delivered w w' s (wire (text_chat nickname (Str.strip line)))) /\
    (writable w a = true ->
     delivered w w' a (wire (text_chat nickname (Str.strip line)))).
Proof.
  intros Ha Hne Hq Hw.
  destruct (broadcast_spec w (text_chat nickname (Str.strip line)) None)
    as (w' & Hb & _ & _ & Hatt & Hdel & _).
  exists w'. split; [|split; [|split]].
  - unfold session_step. destruct (Str.strip line) as [|c text] eqn:E; [congruence|].
    rewrite Hq, Hw, Hb. reflexivity.
  - intros s Hs. apply Hatt, in_snapshot_all, Hs.
  - intros s Hs. apply Hdel, in_snapshot_all, Hs.
  - apply Hdel, in_snapshot_all. unfold registered. rewrite Ha. reflexivity.
Qed.

Lemma chat_line_reaches_every_registered_witness :
  exists w',
    session_step w_alice_bob (lit "alice") 1 (Some (lit " hello ")) = Some (w', Continue)
    /\ delivered w_alice_bob w' 1 (wire (text_chat (lit "alice") (lit "hello")))
    /\ delivered w_alice_bob w' 2 (wire (text_chat (lit "alice") (lit "hello"))).
Proof.
  destruct (chat_line_reaches_every_registered w_alice_bob (lit "alice") 1 (lit " hello "))
    as (w' & Hstep & _ & Hdel & Hself).
  - reflexivity.
  - discriminate.
  - reflexivity.
  - reflexivity.
  - exists w'. split; [exact Hstep|]. split.
    + apply Hself. reflexivity.
    + apply Hdel; reflexivity.
Defined.

(** ** C2: the join announcement *)

(** C2, counterexample.  bob (socket 2) is registered and socket 1 connects,
    sends [alice] and then ends its stream.  The join announcement goes to
    bob and to alice's own socket 1 as well. *)
Lemma join_announced_to_joiner :
  exists w',
    handle_client w_bob 1 [RChunk (line_of "alice")] = Some (w', Returned)
    /\ trace w' =
       [EvSend 1 WELCOME true;
        EvSend 2 (line_of "[SYSTEM] [alice] 님이 입장하셨습니다.") true;
        EvSend 1 (line_of "[SYSTEM] [alice] 님이 입장하셨습니다.") true;
        EvClose 1;
        EvSend 2 (line_of "[SYSTEM] [alice] 님이 퇴장하셨습니다.") true]
    /\ wire (text_join (lit "alice")) = line_of "[SYSTEM] [alice] 님이 입장하셨습니다.".
Proof.
  eexists. split; [vm_compute; reflexivity|]. split; reflexivity.
Qed.

(** C2, as the code has it.  When the first line of a connection [s] holds a
    nickname and the welcome line can be written to [s], the nickname is
    registered and the join announcement is passed to [sendall] for every
    connection registered at that moment, the joining connection [s]
    included; all of them that can be written to receive it, and so does
    [s] itself. *)
Theorem join_reaches_every_registered
        (w : world) (s : sock) (rx rx1 : list recv_result) (n : str) :
  recv_line w s rx = (Some n, rx1) ->
  Str.strip n <> [] ->
  writable w s = true ->
  exists w' o,
    handle_client w s rx = Some (w', o) /\
    (forall s', registered w s' = true \/ s' = s ->
                attempted w w' s' (wire (text_join (Str.strip n)))) /\
    (forall s', registered w s' = true -> writable w s' = true ->
                delivered w w' s' (wire (text_join (Str.strip n)))) /\
    delivered w w' s (wire (text_join (Str.strip n))).
Proof.
  intros Hr Hn Hs.
  assert (Hrf : refused (Some n) = false).
  { unfold refused. destruct (Str.strip n); congruence. }
  set (nick := Str.strip n) in *.
  set (w1 := set_clients w (Dict.set s nick (clients w))).
  set (w2 := log w1 (EvSend s WELCOME true)).
  assert (Hw : forall x, writable w2 x = writable w x) by reflexivity.
  assert (Hreg : forall x, registered w x = true \/ x = s -> In x (snapshot w2 None)).
  { intros x Hx. apply in_snapshot_all. unfold registered. simpl.
    destruct (Nat.eq_dec x s) as [->|Hne].
    - rewrite DictFacts.get_set_same. reflexivity.
    - rewrite DictFacts.get_set_other by exact Hne.
      destruct Hx as [Hx|Hx]; [exact Hx | contradiction]. }
  destruct (broadcast_spec w2 (text_join nick) None)
    as (w3 & Hb & _ & _ & Hatt & Hdel & _).
  destruct (session_loop_total (S (length rx1)) w3 nick s rx1) as (w4 & o & H4 & Hc4);
    [lia|].
  destruct (remove_client_total w4 s) as [w5 H5].
  assert (Hev : evolves w3 w5).
  { eapply evolves_trans; [apply Hc4 | apply (remove_client_drops _ _ _ H5)]. }
  assert (Hpre : emitted w w2 [EvSend s WELCOME true]) by reflexivity.
  exists w5, o. split; [|split; [|split]].
  - unfold handle_client, handle_client_try. rewrite Hr, Hrf.
    fold nick. fold w1. unfold sendall.
    change (writable w1 s) with (writable w s). rewrite Hs. fold w2.
    rewrite Hb, H4, H5. reflexivity.
  - intros s' Hs'. destruct (Hatt s' (Hreg s' Hs')) as [ok Hsent].
    exists ok. eapply sent_after; [exact Hpre|].
    eapply sent_earlier; eassumption.
  - intros s' Hs' Hws'. eapply sent_after; [exact Hpre|].
    eapply sent_earlier; [|exact Hev]. apply Hdel; [apply Hreg; now left|].
    rewrite Hw. exact Hws'.
  - eapply sent_after; [exact Hpre|].
    eapply sent_earlier; [|exact Hev]. apply Hdel; [apply Hreg; now right|].
    rewrite Hw. exact Hs.
Qed.

Lemma join_reaches_every_registered_witness :
  exists w' o,
    handle_client w_bob 1 [RChunk (line_of "alice")] = Some (w', o)
    /\ delivered w_bob w' 2 (wire (text_join (lit "alice")))
    /\ delivered w_bob w' 1 (wire (text_join (lit "alice"))).
Proof.
  destruct (join_reaches_every_registered w_bob 1 [RChunk (line_of "alice")] []
                                          (lit "alice"))
    as (w' & o & H & _ & Hdel & Hself).
  - reflexivity.
  - discriminate.
  - reflexivity.
  - exists w', o. split; [exact H|]. split; [|exact Hself].
    apply Hdel; reflexivity.
Defined.

(** ** C3: an empty nickname *)

Lemma lstrip_blank (l : str) : forallb Str.isspace l = true -> Str.lstrip l = [].
Proof.
  induction l as [|c l IH]; simpl; [reflexivity|].
  intros H. apply andb_true_iff in H. destruct H as [Hc Hl]. rewrite Hc. apply IH, Hl.
Qed.

Lemma strip_blank (l : str) : forallb Str.isspace l = true -> Str.strip l = [].
Proof. intros H. unfold Str.strip, Str.rstrip. rewrite (lstrip_blank l H). reflexivity. Qed.

(** Tearing down a connection that has no entry only closes it. *)
Lemma remove_client_absent (w : world) (s : sock) :
  registered w s = false ->
  remove_client w s = Some (close w s) /\ clients (close w s) = clients w.
Proof.
  unfold registered. intros H. rewrite remove_client_eq.
  destruct (Dict.get s (clients w)) eqn:E; [discriminate|].
  split; [|reflexivity]. unfold dropped.
  rewrite (DictFacts.remove_absent s (clients w) E). destruct w; reflexivity.
Qed.

(** C3.  When the first line read from a new connection [s] (one without an
    entry in the dictionary) is empty or consists of white space only,
    [handle_client] makes exactly one [sendall] call, the refusal line to
    [s], closes [s], and makes no other call: nothing is broadcast, and the
    dictionary is what it was. *)
Theorem blank_nickname_refused
        (w : world) (s : sock) (rx rx1 : list recv_result) (line : str) :
  recv_line w s rx = (Some line, rx1) ->
  forallb Str.isspace line = true ->
  registered w s = false ->
  exists w',
    handle_client w s rx
    = Some (w', if writable w s then Returned else Raised OSError) /\
    emitted w w' (EvSend s REFUSAL (writable w s)
                  :: if writable w s then [EvClose s; EvClose s] else [EvClose s]) /\
    clients w' = clients w /\
    is_closed w' s = true.
Proof.
  intros Hr Hb Hreg.
  assert (Hrf : refused (Some line) = true).
  { unfold refused. rewrite (strip_blank line Hb). reflexivity. }
  unfold handle_client, handle_client_try. rewrite Hr, Hrf. unfold sendall.
  destruct (writable w s).
  - set (w1 := close (log w (EvSend s REFUSAL true)) s).
    destruct (remove_client_absent w1 s Hreg) as [Hrm Hc]. rewrite Hrm.
    exists (close w1 s). split; [reflexivity|]. split; [|split].
    + unfold emitted. simpl. rewrite <- !app_assoc. reflexivity.
    + reflexivity.
    + rewrite is_closed_close, Nat.eqb_refl. reflexivity.
  - set (w1 := log w (EvSend s REFUSAL false)).
    destruct (remove_client_absent w1 s Hreg) as [Hrm Hc]. rewrite Hrm.
    exists (close w1 s). split; [reflexivity|]. split; [|split].
    + unfold emitted. simpl. rewrite <- !app_assoc. reflexivity.
    + reflexivity.
    + rewrite is_closed_close, Nat.eqb_refl. reflexivity.
Qed.

Lemma blank_nickname_refused_witness :
  exists w',
    handle_client w_bob 1 [RChunk (line_of "   ")] = Some (w', Returned)
    /\ trace w' = [EvSend 1 REFUSAL true; EvClose 1; EvClose 1]
    /\ clients w' = clients w_bob.
Proof.
  destruct (blank_nickname_refused w_bob 1 [RChunk (line_of "   ")] [] (lit "   "))
    as (w' & H & He & Hc & _).
  - reflexivity.
  - reflexivity.
  - reflexivity.
  - exists w'. split; [exact H|]. split; [exact He | exact Hc].
Defined.

(** ** C4: what recv_line returns and what it keeps *)

Lemma recv_line_loop_has_line (sock_closed : bool) (buf line rest : bytes)
      (rx : list recv_result) :
  cut_nl buf = Some (line, rest) ->
  recv_line_loop sock_closed buf rx = (Utf8.decode Replace line, rx).
Proof.
  intros H. destruct rx; simpl; rewrite H;
    destruct (Utf8.decode Replace line); reflexivity.
Qed.

Lemma recv_line_loop_next (buf c : bytes) (rx : list recv_result) :
  cut_nl buf = None -> c <> [] ->
  recv_line_loop false buf (RChunk c :: rx) = recv_line_loop false (buf ++ c) rx.
Proof.
  intros H Hc. simpl. rewrite H. destruct c; [congruence | reflexivity].
Qed.

Lemma recv_line_loop_first_line (chunks : list bytes) :
  forall (buf last line rest : bytes) (rx : list recv_result),
    Forall (fun c => c <> []) chunks ->
    ~ In x0a (buf ++ concat chunks) ->
    (buf ++ concat chunks) ++ last = line ++ x0a :: rest ->
    ~ In x0a line ->
    recv_line_loop false buf (map RChunk chunks ++ RChunk last :: rx)
    = (Utf8.decode Replace line, rx).
Proof.
  induction chunks as [|c chunks IH]; intros buf last line rest rx Hne Hno Heq Hline.
  - cbn [map concat app] in *. rewrite app_nil_r in *.
    assert (Hlast : last <> []).
    { intros ->. rewrite app_nil_r in Heq. apply Hno. rewrite Heq.
      apply in_or_app. right. now left. }
    rewrite recv_line_loop_next; [|apply cut_nl_none, Hno | exact Hlast].
    apply recv_line_loop_has_line with (rest := rest).
    rewrite Heq. apply cut_nl_some, Hline.
  - inversion Hne as [|? ? Hc Hrest]; subst. cbn [map concat app] in *.
    rewrite recv_line_loop_next; [| |exact Hc].
    + apply IH with (rest := rest); try assumption;
        rewrite <- (app_assoc buf c (concat chunks)); assumption.
    + apply cut_nl_none. intros Hin. apply Hno. apply in_or_app. now left.
Qed.

(** C4, counterexample.  One [recv] brings two lines, [a] and [b].  The first
    call returns [a] and leaves nothing behind: the next call finds the
    stream at its end and returns no line, so [b] is lost. *)
Lemma second_line_of_chunk_lost :
  recv_line w_empty 1 [RChunk (line_of "a" ++ line_of "b")] = (Some (lit "a"), [])
  /\ recv_line w_empty 1 [] = (None, []).
Proof. split; reflexivity. Qed.

(** C4, as the code has it.  [recv_line] reads until the bytes received in
    this call hold a delimiter and returns the text before the first
    delimiter, decoded, without the delimiter.  The bytes [rest] that were
    received after that delimiter are dropped: what is left for the next call
    is only what [recv] has not yet returned. *)
Theorem recv_line_returns_first_line
        (w : world) (s : sock) (chunks : list bytes) (last line rest : bytes)
        (rx : list recv_result) :
  is_closed w s = false ->
  Forall (fun c => c <> []) chunks ->
  ~ In x0a (concat chunks) ->
  concat chunks ++ last = line ++ x0a :: rest ->
  ~ In x0a line ->
  recv_line w s (map RChunk chunks ++ RChunk last :: rx)
  = (Utf8.decode Replace line, rx).
Proof.
  intros Hopen Hne Hno Heq Hline. unfold recv_line. rewrite Hopen.
  apply recv_line_loop_first_line with (rest := rest); assumption.
Qed.

Lemma recv_line_returns_first_line_witness :
  recv_line w_empty 1 [RChunk (list_byte_of_string "he"); RChunk (line_of "y" ++ line_of "you");
                       RChunk (line_of "there")]
  = (Some (lit "hey"), [RChunk (line_of "there")]).
Proof.
  apply (recv_line_returns_first_line w_empty 1 [list_byte_of_string "he"]
           (line_of "y" ++ line_of "you") (list_byte_of_string "hey") (line_of "you")
           [RChunk (line_of "there")]).
  - reflexivity.
  - constructor; [discriminate | constructor].
  - simpl. intros [H|[H|[]]]; discriminate.
  - reflexivity.
  - simpl. intros [H|[H|[H|[]]]]; discriminate.
Defined.

(** ** C5: lines that are not valid UTF-8 *)

(** The fuel given to the inner loop of [recv_loop] is enough: it stops only
    when no delimiter is left in the buffer. *)
Lemma print_lines_drains (fuel : nat) :
  forall buf out, length buf < fuel -> cut_nl (fst (print_lines fuel buf out)) = None.
Proof.
  induction fuel as [|n IH]; intros buf out Hlen; [lia|].
  simpl. destruct (cut_nl buf) as [[line rest]|] eqn:E; [|exact E].
  assert (Hrest : length rest < n).
  { destruct (cut_nl_inv buf line rest E) as [-> _].
    rewrite length_app in Hlen. simpl in Hlen. lia. }
  destruct (Utf8.decode Replace line); apply IH, Hrest.
Qed.

(** C5, counterexample.  The byte FF is not valid UTF-8 (strict decoding
    fails), yet [recv_line] returns a line for it, U+FFFD, and not the
    failure value; the client prints the same. *)
Lemma undecodable_line_not_a_failure :
  Utf8.decode Strict [xff] = None
  /\ recv_line w_empty 1 [RChunk [xff; x0a]] = (Some [0xFFFD%N], [])
  /\ recv_loop [] [RChunk [xff; x0a]] [] = [[0xFFFD%N]].
Proof. repeat split; reflexivity. Qed.

(** C5, as the code has it.  Whatever the bytes of a received line, valid
    UTF-8 or not, the server's [recv_line] returns its decoding under
    [errors='replace'], which always exists, and never the failure value; the
    client's [recv_loop] prints that same text.  Both peers apply the same
    policy. *)
Theorem undecodable_line_is_replaced
        (w : world) (s : sock) (line rest : bytes) (rx : list recv_result) :
  is_closed w s = false ->
  ~ In x0a line ->
  exists t,
    Utf8.decode Replace line = Some t /\
    recv_line w s (RChunk (line ++ x0a :: rest) :: rx) = (Some t, rx) /\
    recv_loop [] [RChunk (line ++ [x0a])] [] = [t].
Proof.
  intros Hopen Hline.
  destruct (Utf8Facts.decode_replace_total line) as [t Ht]. exists t.
  split; [exact Ht|]. split.
  - rewrite <- Ht. unfold recv_line. rewrite Hopen.
    apply (recv_line_loop_first_line [] [] (line ++ x0a :: rest) line rest rx);
      try assumption; try reflexivity; [constructor | intros []].
  - assert (Hcut : cut_nl (line ++ [x0a]) = Some (line, [])) by (apply cut_nl_some, Hline).
    destruct (line ++ [x0a]) as [|c l] eqn:E; [destruct line; discriminate|].
    cbn [recv_loop app print_lines length]. rewrite Hcut, Ht.
    destruct (length l); reflexivity.
Qed.

Lemma undecodable_line_is_replaced_witness :
  exists t,
    Utf8.decode Replace [xe2; x82] = Some t /\
    recv_line w_empty 1 [RChunk ([xe2; x82] ++ x0a :: line_of "x")] = (Some t, []) /\
    recv_loop [] [RChunk ([xe2; x82] ++ [x0a])] [] = [t].
Proof.
  apply (undecodable_line_is_replaced w_empty 1 [xe2; x82] (line_of "x") []).
  - reflexivity.
  - simpl. intros [H|[H|[]]]; discriminate.
Defined.

(** ** C6: the fields of a whisper line *)

Module StrFacts.

Lemma startswith_app (p : str) : forall s,
  Str.startswith s p = true -> exists r, s = p ++ r.
Proof.
  induction p as [|x p IH]; intros s H; [exists s; reflexivity|].
  destruct s as [|y s]; [discriminate|]. simpl in H.
  apply andb_true_iff in H. destruct H as [Hxy H].
  apply N.eqb_eq in Hxy. subst y. destruct (IH s H) as [r ->].
  exists r. reflexivity.
Qed.

Lemma cut_some (sep : N) (a b : str) :
  ~ In sep a -> Str.cut sep (a ++ sep :: b) = Some (a, b).
Proof.
  induction a as [|c a IH]; intros Hn; simpl.
  - rewrite N.eqb_refl. reflexivity.
  - destruct (N.eqb c sep) eqn:E.
    + apply N.eqb_eq in E. subst. exfalso. apply Hn. now left.
    + rewrite IH; [reflexivity|]. intros H. apply Hn. now right.
Qed.

Lemma cut_inv (sep : N) (s : str) : forall a b,
  Str.cut sep s = Some (a, b) -> s = a ++ sep :: b /\ ~ In sep a.
Proof.
  induction s as [|c s IH]; intros a b H; [discriminate|].
  simpl in H. destruct (N.eqb c sep) eqn:E.
  - apply N.eqb_eq in E. subst. injection H as <- <-. split; [reflexivity | intros []].
  - destruct (Str.cut sep s) as [[a' b']|]; [|discriminate].
    injection H as <- <-. destruct (IH a' b' eq_refl) as [-> Hn].
    split; [reflexivity|]. intros [->|Hin]; [|contradiction].
    rewrite N.eqb_refl in E. discriminate.
Qed.

Lemma split_nonempty (sep : N) (n : nat) (s : str) : Str.split sep n s <> [].
Proof. destruct n; simpl; [discriminate|]. destruct (Str.cut sep s) as [[a b]|]; discriminate. Qed.

Lemma join_cons (sep : N) (p : str) (ps : list str) :
  ps <> [] -> Str.join sep (p :: ps) = p ++ sep :: Str.join sep ps.
Proof. destruct ps; [congruence | reflexivity]. Qed.

(** [split] loses nothing: joining the fields with the separator gives the
    text back. *)
Lemma join_split (sep : N) (n : nat) : forall s, Str.join sep (Str.split sep n s) = s.
Proof.
  induction n as [|n IH]; intros s; [reflexivity|].
  simpl. destruct (Str.cut sep s) as [[a b]|] eqn:E; [|reflexivity].
  rewrite join_cons by apply split_nonempty. rewrite IH.
  symmetry. apply (cut_inv sep s a b E).
Qed.

Lemma whisper_prefix_eq : WHISPER_PREFIX = [0x2F; 0x77; 0x20]%N.
Proof. reflexivity. Qed.

(** The fields of a text that starts with the whisper prefix. *)
Lemma split_whisper (r : str) :
  Str.split SPACE 2 (WHISPER_PREFIX ++ r) =
  lit "/w" :: match Str.cut SPACE r with
              | Some (a, b) => [a; b]
              | None => [r]
              end.
Proof.
  rewrite whisper_prefix_eq. cbn [app Str.split Str.cut].
  change (N.eqb 0x2F SPACE) with false. change (N.eqb 0x77 SPACE) with false.
  change (N.eqb 0x20 SPACE) with true. cbv iota.
  destruct (Str.cut SPACE r) as [[a b]|]; reflexivity.
Qed.

Lemma startswith_prefix (p r : str) : Str.startswith (p ++ r) p = true.
Proof.
  induction p as [|x p IH]; [destruct r; reflexivity|].
  simpl. rewrite N.eqb_refl. exact IH.
Qed.

Lemma whisper_not_quit (r : str) : Str.eqb (WHISPER_PREFIX ++ r) QUIT = false.
Proof. reflexivity. Qed.

End StrFacts.

(** A whisper line with a target and a content reaches [send_whisper] with
    exactly these two. *)
Lemma session_step_whisper (w : world) (nickname : str) (s : sock)
      (line target content : str) :
  ~ In SPACE target ->
  Str.strip line = lit "/w" ++ SPACE :: target ++ SPACE :: content ->
  Str.split SPACE 2 (Str.strip line) = [lit "/w"; target; content] /\
  session_step w nickname s (Some line) =
  match send_whisper w nickname target content s with
  | (w1, None) => Some (w1, Continue)
  | (w1, Some e) => Some (w1, Raise e)
  end.
Proof.
  intros Ht Heq. unfold session_step. rewrite Heq.
  change (lit "/w" ++ SPACE :: target ++ SPACE :: content)
    with (WHISPER_PREFIX ++ target ++ SPACE :: content).
  rewrite StrFacts.split_whisper, (StrFacts.cut_some SPACE target content Ht).
  rewrite StrFacts.whisper_not_quit, StrFacts.startswith_prefix.
  split; reflexivity.
Qed.

(** C6, counterexample.  alice's peer is gone, so a write to her socket
    raises [OSError].  She sends [/w bob]: the usage line cannot be written,
    the pass ends with the exception and the session loop with it, so the
    session does not continue.  And the raw line [/w] followed by a space
    starts with the whisper prefix, but what is tested is the stripped text
    [/w]: it is broadcast as a chat line and no usage line is sent. *)
Lemma whisper_usage_write_can_end_session :
  session_step w_alice_gone (lit "alice") 1 (Some (lit "/w bob"))
  = Some (log w_alice_gone (EvSend 1 USAGE false), Raise OSError)
  /\ session_loop 3 w_alice_gone (lit "alice") 1
                  [RChunk (line_of "/w bob"); RChunk (line_of "hello")]
     = Some (log w_alice_gone (EvSend 1 USAGE false), Raised OSError)
  /\ Str.startswith (lit "/w ") WHISPER_PREFIX = true
  /\ exists w',
       session_step w_alice_bob (lit "alice") 1 (Some (lit "/w ")) = Some (w', Continue)
       /\ trace w' = [EvSend 1 (line_of "alice> /w") true;
                      EvSend 2 (line_of "alice> /w") true].
Proof.
  split; [reflexivity|]. split; [reflexivity|]. split; [reflexivity|].
  eexists. split; [vm_compute; reflexivity | reflexivity].
Qed.

(** C6, as the code has it.  For a line whose text after stripping starts
    with the whisper prefix: [split] gives at most three fields and loses
    nothing (joining them with single spaces gives the text back); when the
    text is [/w], a space, a target without spaces, a space and any content,
    the fields are exactly [/w], the target and the content, spaces in the
    content kept, and they are what [send_whisper] is called with; when there
    are fewer than three fields, the only effect is one [sendall] of the
    usage line to the sender, and the loop goes on if that write succeeds
    and ends with [OSError] if it fails. *)
Theorem whisper_line_fields (w : world) (nickname : str) (s : sock) (line : str) :
  Str.startswith (Str.strip line) WHISPER_PREFIX = true ->
  length (Str.split SPACE 2 (Str.strip line)) <= 3 /\
  Str.join SPACE (Str.split SPACE 2 (Str.strip line)) = Str.strip line /\
  (forall target content,
      ~ In SPACE target ->
      Str.strip line = lit "/w" ++ SPACE :: target ++ SPACE :: content ->
      Str.split SPACE 2 (Str.strip line) = [lit "/w"; target; content] /\
      session_step w nickname s (Some line) =
      match send_whisper w nickname target content s with
      | (w1, None) => Some (w1, Continue)
      | (w1, Some e) => Some (w1, Raise e)
      end) /\
  (length (Str.split SPACE 2 (Str.strip line)) < 3 ->
   session_step w nickname s (Some line)
   = Some (log w (EvSend s USAGE (writable w s)),
           if writable w s then Continue else Raise OSError)).
Proof.
  intros Hp. unfold session_step.
  destruct (StrFacts.startswith_app _ _ Hp) as [r Hr].
  rewrite Hp, Hr, StrFacts.whisper_not_quit, StrFacts.split_whisper.
  change (WHISPER_PREFIX ++ r) with (0x2F%N :: (0x77%N :: SPACE :: r)).
  cbv iota. split; [|split; [|split]].
  - destruct (Str.cut SPACE r) as [[a b]|]; simpl; lia.
  - change (0x2F%N :: 0x77%N :: SPACE :: r) with (WHISPER_PREFIX ++ r).
    rewrite <- StrFacts.split_whisper. apply StrFacts.join_split.
  - intros target content Ht Heq.
    assert (Hr' : r = target ++ SPACE :: content).
    { change (lit "/w" ++ SPACE :: target ++ SPACE :: content)
        with (0x2F%N :: 0x77%N :: SPACE :: target ++ SPACE :: content) in Heq.
      congruence. }
    rewrite Hr', (StrFacts.cut_some SPACE target content Ht). split; reflexivity.
  - destruct (Str.cut SPACE r) as [[a b]|]; simpl; [lia|].
    intros _. unfold sendall. destruct (writable w s); reflexivity.
Qed.

Lemma whisper_line_fields_witness :
  Str.split SPACE 2 (Str.strip (lit " /w bob hi  there ")) = [lit "/w"; lit "bob"; lit "hi  there"]
  /\ session_step w_alice_bob (lit "alice") 1 (Some (lit "/w bob"))
     = Some (log w_alice_bob (EvSend 1 USAGE true), Continue)
  /\ session_step w_alice_gone (lit "alice") 1 (Some (lit "/w bob"))
     = Some (log w_alice_gone (EvSend 1 USAGE false), Raise OSError).
Proof.
  split; [|split].
  - apply (whisper_line_fields w_alice_bob (lit "alice") 1 (lit " /w bob hi  there ")
             eq_refl).
    + simpl. intros [H|[H|[H|[]]]]; discriminate.
    + reflexivity.
  - apply (whisper_line_fields w_alice_bob (lit "alice") 1 (lit "/w bob") eq_refl).
    simpl. lia.
  - apply (whisper_line_fields w_alice_gone (lit "alice") 1 (lit "/w bob") eq_refl).
    simpl. lia.
Defined.

(** ** C7 and C10: send_whisper *)

Lemma str_eqb_eq (a b : str) : Str.eqb a b = true <-> a = b.
Proof.
  revert b. induction a as [|x a IH]; intros [|y b]; simpl;
    try (split; [discriminate | congruence]); [tauto|].
  rewrite andb_true_iff, N.eqb_eq, IH. split; [intros [-> ->]; reflexivity|].
  intros H. injection H as -> ->. split; reflexivity.
Qed.

(** The lookup finds nothing exactly when no entry carries the name. *)
Lemma find_by_nickname_none (d : Dict.t) (target_name : str) :
  find_by_nickname d target_name = None <->
  (forall s name, In (s, name) d -> name <> target_name).
Proof.
  induction d as [|[s0 n0] d IH]; simpl.
  - split; [intros _ s name [] | reflexivity].
  - destruct (Str.eqb n0 target_name) eqn:E.
    + apply str_eqb_eq in E. split; [discriminate|].
      intros H. exfalso. apply (H s0 n0); [now left | exact E].
    + rewrite IH. split.
      * intros H s name [Heq|Hin]; [|apply (H s name Hin)].
        injection Heq as <- <-. intros ->.
        assert (Str.eqb target_name target_name = true) by (apply str_eqb_eq; reflexivity).
        congruence.
      * intros H s name Hin. apply (H s name). now right.
Qed.

(** C7, counterexample.  alice's peer is gone and she whispers to carol,
    who is not registered.  The "no such target" line cannot be written to
    alice, [send_whisper] raises [OSError], and the pass and the session loop
    end with it: the requester's session does not continue. *)
Lemma whisper_not_found_write_can_end_session :
  find_by_nickname (clients w_alice_gone) (lit "carol") = None
  /\ session_step w_alice_gone (lit "alice") 1 (Some (lit "/w carol hi"))
     = Some (log w_alice_gone
                 (EvSend 1 (line_of "[SYSTEM] 대상 [carol] 없음.") false),
             Raise OSError)
  /\ session_loop 3 w_alice_gone (lit "alice") 1
                  [RChunk (line_of "/w carol hi"); RChunk (line_of "hello")]
     = Some (log w_alice_gone
                 (EvSend 1 (line_of "[SYSTEM] 대상 [carol] 없음.") false),
             Raised OSError).
Proof. repeat split; reflexivity. Qed.

(** C7, as the code has it.  When no entry of the dictionary carries the
    target nickname, [send_whisper] makes exactly one [sendall] call, the
    "no such target" line to the requester [s]; nothing goes to any other
    connection, nothing is broadcast and the dictionary is untouched.  When
    that write succeeds the function returns and the session loop of the
    requester goes on; when it fails, [OSError] leaves the function and ends
    the loop. *)
Theorem whisper_to_unknown_target
        (w : world) (sender target_name content : str) (s : sock) (data : bytes) :
  find_by_nickname (clients w) target_name = None ->
  Utf8.encode Strict (text_no_target target_name) = Some data ->
  send_whisper w sender target_name content s
  = (log w (EvSend s data (writable w s)),
     if writable w s then None else Some OSError) /\
  clients (log w (EvSend s data (writable w s))) = clients w /\
  (forall line,
      ~ In SPACE target_name ->
      Str.strip line = lit "/w" ++ SPACE :: target_name ++ SPACE :: content ->
      session_step w sender s (Some line)
      = Some (log w (EvSend s data (writable w s)),
              if writable w s then Continue else Raise OSError)).
Proof.
  intros Hf He.
  assert (Hw : send_whisper w sender target_name content s
               = (log w (EvSend s data (writable w s)),
                  if writable w s then None else Some OSError)).
  { unfold send_whisper. rewrite Hf, He. unfold sendall.
    destruct (writable w s); reflexivity. }
  split; [exact Hw|]. split; [reflexivity|].
  intros line Ht Hl.
  destruct (session_step_whisper w sender s line target_name content Ht Hl) as [_ ->].
  rewrite Hw. destruct (writable w s); reflexivity.
Qed.

Lemma whisper_to_unknown_target_witness :
  session_step w_alice_bob (lit "alice") 1 (Some (lit "/w carol hi"))
  = Some (log w_alice_bob (EvSend 1 (line_of "[SYSTEM] 대상 [carol] 없음.") true), Continue).
Proof.
  apply (whisper_to_unknown_target w_alice_bob (lit "alice") (lit "carol") (lit "hi") 1
           (line_of "[SYSTEM] 대상 [carol] 없음.") eq_refl eq_refl).
  - simpl. intros [H|[H|[H|[H|[H|[]]]]]]; discriminate.
  - reflexivity.
Defined.



(** ** C8: tearing down twice *)

(** C8.  [remove_client] on [s] always ends, and leaves [s] without an
    entry.  On any state where [s] has no entry, taking it out of the
    dictionary again yields no nickname and the same dictionary, and
    [remove_client] does nothing but close the socket once more: the
    dictionary is unchanged and no line is sent to anyone. *)
Theorem teardown_idempotent (w : world) (s : sock) :
  (exists w1, remove_client w s = Some w1 /\ registered w1 s = false) /\
  (forall w1, registered w1 s = false ->
              Dict.pop s (clients w1) = (None, clients w1) /\
              remove_client w1 s = Some (close w1 s) /\
              clients (close w1 s) = clients w1 /\
              emitted w1 (close w1 s) [EvClose s]).
Proof.
  split.
  - destruct (remove_client_total w s) as [w1 H]. exists w1. split; [exact H|].
    apply (remove_client_drops _ _ _ H).
  - intros w1 Hreg. destruct (remove_client_absent w1 s Hreg) as [Hrm Hc].
    split; [|split; [exact Hrm | split; [exact Hc | reflexivity]]].
    unfold registered in Hreg. unfold Dict.pop.
    destruct (Dict.get s (clients w1)) eqn:E; [discriminate|].
    rewrite (DictFacts.remove_absent s (clients w1) E). reflexivity.
Qed.

Lemma teardown_idempotent_witness :
  exists w1,
    remove_client w_alice_bob 1 = Some w1
    /\ trace w1 = [EvClose 1; EvSend 2 (line_of "[SYSTEM] [alice] 님이 퇴장하셨습니다.") true]
    /\ remove_client w1 1 = Some (close w1 1)
    /\ clients (close w1 1) = clients w1.
Proof.
  destruct (teardown_idempotent w_alice_bob 1) as [_ H].
  eexists. split; [vm_compute; reflexivity|]. split; [reflexivity|].
  split; apply H; reflexivity.
Defined.

(** ** C9: a broadcast that meets a dead connection *)

(** C9.  Let [s] be a target of a broadcast that cannot be written to.  The
    broadcast ends; afterwards [s] has no entry and is closed.  If [s] was
    registered under a non-empty nickname, its departure line has been
    delivered to every connection that was registered and could be written
    to when the broadcast began; these connections all keep their entry, and
    whoever is registered at the end has received the departure line.  The
    broadcast itself has gone on: [sendall] was called with the line for
    every target, and every target that can be written to has received
    it. *)
Theorem broadcast_drops_failed_target
        (w : world) (text : str) (ex : option sock) (s : sock) :
  In s (snapshot w ex) ->
  writable w s = false ->
  exists w',
    broadcast w text ex = Some w' /\
    registered w' s = false /\
    is_closed w' s = true /\
    (forall nick, Dict.get s (clients w) = Some nick -> nick <> [] ->
       forall s', registered w s' = true -> writable w s' = true ->
                  registered w' s' = true /\
                  delivered w w' s' (wire (text_leave nick))) /\
    (forall nick, Dict.get s (clients w) = Some nick -> nick <> [] ->
       forall s', registered w' s' = true ->
                  delivered w w' s' (wire (text_leave nick))) /\
    (forall t, In t (snapshot w ex) -> attempted w w' t (wire text)) /\
    (forall t, In t (snapshot w ex) -> writable w t = true ->
               delivered w w' t (wire text)).
Proof.
  intros Hin Hs.
  destruct (broadcast_spec w text ex) as (w' & Hb & Hc & Ha & Hatt & Hdel & Hdrop).
  exists w'. destruct (Hdrop s Hin Hs) as [Hreg Hcl].
  split; [exact Hb|]. split; [exact Hreg|]. split; [exact Hcl|].
  split; [|split; [|split; assumption]].
  - intros nick Hg Hn s' Hr Hw.
    assert (Hr' : registered w' s' = true).
    { destruct Hc as [_ Hsp]. destruct (Hsp s' Hw) as [_ Hsame].
      unfold registered in *. rewrite Hsame. exact Hr. }
    split; [exact Hr'|]. eapply Ha; eassumption.
  - intros nick Hg Hn s' Hs'. eapply Ha; eassumption.
Qed.

Lemma broadcast_drops_failed_target_witness :
  exists w',
    broadcast w_bob_gone (lit "hi") (Some 1) = Some w'
    /\ clients w' = [(1, lit "alice"); (3, lit "carol")]
    /\ closed w' = [2]
    /\ delivered w_bob_gone w' 1 (wire (text_leave (lit "bob")))
    /\ delivered w_bob_gone w' 3 (wire (text_leave (lit "bob")))
    /\ delivered w_bob_gone w' 3 (wire (lit "hi")).
Proof.
  destruct (broadcast_drops_failed_target w_bob_gone (lit "hi") (Some 1) 2)
    as (w' & Hb & _ & _ & _ & Hleave & _ & Hdel).
  - simpl. auto.
  - reflexivity.
  - assert (Hw : w' = mkWorld [(1, lit "alice"); (3, lit "carol")] [2] [2]
                        [EvSend 2 (wire (lit "hi")) false; EvClose 2;
                         EvSend 1 (wire (text_leave (lit "bob"))) true;
                         EvSend 3 (wire (text_leave (lit "bob"))) true;
                         EvSend 3 (wire (lit "hi")) true]).
    { assert (Hb' : broadcast w_bob_gone (lit "hi") (Some 1)
                    = Some (mkWorld [(1, lit "alice"); (3, lit "carol")] [2] [2]
                        [EvSend 2 (wire (lit "hi")) false; EvClose 2;
                         EvSend 1 (wire (text_leave (lit "bob"))) true;
                         EvSend 3 (wire (text_leave (lit "bob"))) true;
                         EvSend 3 (wire (lit "hi")) true]))
        by (vm_compute; reflexivity).
      congruence. }
    exists w'. split; [exact Hb|]. split; [rewrite Hw; reflexivity|].
    split; [rewrite Hw; reflexivity|].
    split; [|split].
    + apply (Hleave (lit "bob")); [reflexivity | discriminate | rewrite Hw; reflexivity].
    + apply (Hleave (lit "bob")); [reflexivity | discriminate | rewrite Hw; reflexivity].
    + apply Hdel; [simpl; auto | reflexivity].
Defined.

(** * Further properties of server.py and client.py *)

(** ** broadcast *)

Lemma fold_log (data : bytes) (targets : list sock) : forall w,
  fold_left (fun w0 s => log w0 (EvSend s data true)) targets w =
  mkWorld (clients w) (closed w) (broken w)
          (trace w ++ map (fun s => EvSend s data true) targets).
Proof.
  induction targets as [|t rest IH]; intros w; simpl.
  - rewrite app_nil_r. destruct w; reflexivity.
  - rewrite IH. simpl. rewrite <- app_assoc. reflexivity.
Qed.

(** When every target of a broadcast can be written to, the broadcast is one
    successful [sendall] of the line per target, in the order of the
    dictionary, and nothing else: no entry is removed, no socket closed, and
    an excluded socket is not among the targets. *)
Theorem broadcast_all_writable (w : world) (text : str) (ex : option sock) :
  (forall s, In s (snapshot w ex) -> writable w s = true) ->
  broadcast w text ex =
  Some (mkWorld (clients w) (closed w) (broken w)
                (trace w ++ map (fun s => EvSend s (wire text) true) (snapshot w ex)))
  /\ (forall x, ex = Some x -> ~ In x (snapshot w ex)).
Proof.
  intros H. split.
  - unfold broadcast. simpl. rewrite send_each_all_writable by exact H.
    rewrite fold_log. reflexivity.
  - intros x -> Hin. apply in_snapshot in Hin. destruct Hin as [_ Hx].
    simpl in Hx. rewrite Nat.eqb_refl in Hx. discriminate.
Qed.

Lemma broadcast_all_writable_witness :
  broadcast w_alice_bob (lit "hi") (Some 1) =
  Some (mkWorld (clients w_alice_bob) [] [] [EvSend 2 (line_of "hi") true]).
Proof.
  apply (broadcast_all_writable w_alice_bob (lit "hi") (Some 1)).
  intros s [<-|[]]. reflexivity.
Defined.

Lemma pruned_refl (w : world) : pruned w w.
Proof.
  exists (fun _ => true). induction (clients w) as [|kv d IH]; simpl; congruence.
Qed.

Lemma filter_filter {A : Type} (f g : A -> bool) (l : list A) :
  filter g (filter f l) = filter (fun x => f x && g x) l.
Proof.
  induction l as [|x l IH]; simpl; [reflexivity|].
  destruct (f x); simpl; [destruct (g x); simpl; congruence | exact IH].
Qed.

Lemma pruned_trans (w1 w2 w3 : world) : pruned w1 w2 -> pruned w2 w3 -> pruned w1 w3.
Proof.
  intros [f Hf] [g Hg]. exists (fun k => f k && g k).
  rewrite Hg, Hf. apply filter_filter.
Qed.

Lemma pruned_dropped (w : world) (s : sock) : pruned w (dropped w s).
Proof. exists (fun k => negb (Nat.eqb k s)). reflexivity. Qed.

Lemma send_each_pruned (rm : world -> sock -> option world) :
  (forall w s w', rm w s = Some w' -> pruned w w') ->
  forall data targets w w', send_each rm data targets w = Some w' -> pruned w w'.
Proof.
  intros Hrm data targets. induction targets as [|t rest IH]; intros w w' H.
  - injection H as <-. apply pruned_refl.
  - rewrite send_each_cons in H. destruct (writable w t).
    + apply (IH _ _ H).
    + destruct (rm _ t) as [w2|] eqn:E; [|discriminate].
      eapply pruned_trans; [apply (Hrm _ _ _ E) | apply (IH _ _ H)].
Qed.

Lemma broadcast_fuel_pruned (fuel : nat) :
  forall w text ex w', broadcast_fuel fuel w text ex = Some w' -> pruned w w'.
Proof.
  induction fuel as [|n IH]; intros w text ex w' H; [discriminate|].
  simpl in H. eapply send_each_pruned; [|exact H].
  intros w0 s w0' H0. rewrite remove_client_with_eq in H0.
  destruct (Dict.get s (clients w0)) as [[|c nick]|].
  - injection H0 as <-. apply pruned_dropped.
  - eapply pruned_trans; [apply pruned_dropped | eapply IH, H0].
  - injection H0 as <-. apply pruned_dropped.
Qed.

Lemma nodup_keys_filter (f : sock * str -> bool) (d : Dict.t) :
  NoDup (Dict.keys d) -> NoDup (Dict.keys (filter f d)).
Proof.
  induction d as [|kv d IH]; simpl; intros H; [constructor|].
  inversion H as [|? ? Hn Hd]; subst. destruct (f kv); simpl; [|apply IH, Hd].
  constructor; [|apply IH, Hd]. intros Hin. apply Hn.
  unfold Dict.keys in *. apply in_map_iff in Hin. destruct Hin as (x & Hx & Hin).
  apply filter_In in Hin. apply in_map_iff. exists x. tauto.
Qed.

(** A broadcast never adds or reorders entries: the dictionary afterwards
    is the old one with some entries taken out, so it keeps one entry per
    socket; sockets that were closed stay closed. *)
Theorem broadcast_only_removes (w : world) (text : str) (ex : option sock) :
  exists w',
    broadcast w text ex = Some w' /\
    pruned w w' /\
    (NoDup (Dict.keys (clients w)) -> NoDup (Dict.keys (clients w'))) /\
    (forall s, is_closed w s = true -> is_closed w' s = true) /\
    broken w' = broken w.
Proof.
  destruct (broadcast_total w text ex) as [w' H]. exists w'.
  pose proof (broadcast_fuel_pruned _ _ _ _ _ H) as Hp.
  pose proof (broadcast_evolves _ _ _ _ H) as Hev.
  split; [exact H|]. split; [exact Hp|]. split; [|split].
  - destruct Hp as [keep ->]. apply nodup_keys_filter.
  - apply (ev_closed Hev).
  - apply (ev_broken Hev).
Qed.

(** After a broadcast to everyone, whoever is still registered can be
    written to and has received the line: connections that could not be
    written to are all gone from the dictionary. *)
Theorem broadcast_purges_dead (w : world) (text : str) :
  exists w',
    broadcast w text None = Some w' /\
    forall s, registered w' s = true ->
              writable w' s = true /\ delivered w w' s (wire text).
Proof.
  destruct (broadcast_spec w text None) as (w' & H & Hc & _ & _ & Hdel & Hdrop).
  exists w'. split; [exact H|]. intros s Hs.
  assert (Hin : In s (snapshot w None)).
  { apply in_snapshot_all. eapply registered_before; [apply Hc | exact Hs]. }
  destruct (writable w s) eqn:Hw.
  - split; [apply Hc, Hw | apply Hdel; assumption].
  - destruct (Hdrop s Hin Hw) as [Hout _]. congruence.
Qed.

Lemma emitted_unique (w w' : world) (a b : list event) :
  emitted w w' a -> emitted w w' b -> a = b.
Proof. unfold emitted. intros Ha Hb. rewrite Ha in Hb. eapply app_inv_head, Hb. Qed.

Lemma send_each_sends_only (rm : world -> sock -> option world) (data : bytes)
      (w0 : world) :
  rm_drops rm -> rm_quiet rm ->
  forall targets w w',
    (forall t, In t targets -> registered w0 t = true) ->
    evolves w0 w ->
    send_each rm data targets w = Some w' ->
    exists evs, emitted w w' evs /\
      forall s d ok, In (EvSend s d ok) evs ->
        registered w0 s = true /\ (d = data \/ exists n, d = wire (text_leave n)).
Proof.
  intros Hd Hq. induction targets as [|t rest IH]; intros w w' Ht Hev H.
  - injection H as <-. exists []. split; [apply emitted_nil | intros ? ? ? []].
  - rewrite send_each_cons in H.
    assert (Ht' : forall x, In x rest -> registered w0 x = true)
      by (intros x Hx; apply Ht; now right).
    destruct (writable w t).
    + destruct (IH _ _ Ht' (evolves_trans _ _ _ Hev (log_evolves w _)) H)
        as (evs & He & Hall).
      exists (EvSend t data true :: evs). split.
      * apply (emitted_app w (log w (EvSend t data true)) w' [_] evs);
          [reflexivity | exact He].
      * intros s d ok [Heq|Hin]; [|apply (Hall _ _ _ Hin)].
        injection Heq as <- <- <-. split; [apply Ht; now left | now left].
    + destruct (rm _ t) as [w2|] eqn:E; [|discriminate].
      destruct (Hq _ _ _ E) as (e1 & He1 & Hall1).
      destruct (Hd _ _ _ E) as (Hev2 & _).
      assert (Hev1 : evolves w0 (log w (EvSend t data false)))
        by (eapply evolves_trans; [exact Hev | apply log_evolves]).
      destruct (IH _ _ Ht' (evolves_trans _ _ _ Hev1 Hev2) H) as (evs & He & Hall).
      exists (EvSend t data false :: e1 ++ evs). split.
      * apply (emitted_app w (log w (EvSend t data false)) w' [_] (e1 ++ evs));
          [reflexivity|]. eapply emitted_app; eassumption.
      * intros s d ok [Heq|Hin].
        { injection Heq as <- <- <-. split; [apply Ht; now left | now left]. }
        apply in_app_or in Hin. destruct Hin as [Hin|Hin]; [|apply (Hall _ _ _ Hin)].
        destruct (Hall1 _ _ _ Hin) as [Hr Hn]. split; [|now right].
        eapply registered_before; [exact Hev1 | exact Hr].
Qed.

Lemma broadcast_fuel_sends_only (fuel : nat) :
  forall w text ex w', broadcast_fuel fuel w text ex = Some w' ->
    exists evs, emitted w w' evs /\ sends_only w text evs.
Proof.
  induction fuel as [|n IH]; intros w text ex w' H; [discriminate|].
  simpl in H.
  eapply send_each_sends_only; [apply remove_client_fuel_drops | | | apply evolves_refl | exact H].
  - intros w0 s w0' H0. rewrite remove_client_with_eq in H0.
    assert (Hbase : exists evs, emitted w0 (dropped w0 s) evs /\
              forall s' d ok, In (EvSend s' d ok) evs ->
                registered w0 s' = true /\ exists n0, d = wire (text_leave n0)).
    { exists [EvClose s]. split; [reflexivity|].
      intros s' d ok [Heq|[]]. discriminate. }
    destruct (Dict.get s (clients w0)) as [[|c nick]|];
      try (injection H0 as <-; exact Hbase).
    destruct (IH _ _ _ _ H0) as (evs & He & Hall).
    exists (EvClose s :: evs). split.
    + apply (emitted_app w0 (dropped w0 s) w0' [_] evs); [reflexivity | exact He].
    + intros s' d ok [Heq|Hin]; [discriminate|].
      destruct (Hall _ _ _ Hin) as [Hr Hd]. split.
      * eapply registered_before; [apply dropped_evolves | exact Hr].
      * destruct Hd as [->|Hd]; [eexists; reflexivity | exact Hd].
  - intros t Ht. apply in_snapshot in Ht. apply Ht.
Qed.

(** A broadcast writes only to connections that were registered when it
    began (never to a socket still waiting to give its nickname), and what it
    writes is only its own line or the departure line of a connection it had
    to drop. *)
Theorem broadcast_sends_only (w : world) (text : str) (ex : option sock) :
  exists w' evs,
    broadcast w text ex = Some w' /\ emitted w w' evs /\ sends_only w text evs.
Proof.
  destruct (broadcast_total w text ex) as [w' H].
  destruct (broadcast_fuel_sends_only _ _ _ _ _ H) as (evs & He & Hs).
  exists w', evs. auto.
Qed.

(** ** remove_client and handle_client *)

Lemma broadcast_facts (w : world) (text : str) (ex : option sock) (w' : world) :
  broadcast w text ex = Some w' ->
  cascade w w' /\
  (forall s, In s (snapshot w ex) -> writable w s = true ->
             delivered w w' s (wire text)) /\
  exists evs, emitted w w' evs /\ sends_only w text evs.
Proof.
  intros H. destruct (broadcast_spec w text ex) as (w2 & H2 & Hc & _ & _ & Hdel & _).
  assert (w2 = w') by congruence. subst w2.
  split; [exact Hc|]. split; [exact Hdel|].
  apply (broadcast_fuel_sends_only _ _ _ _ _ H).
Qed.

Lemma writable_dropped (w : world) (s s' : sock) :
  s' <> s -> writable (dropped w s) s' = writable w s'.
Proof.
  intros Hne. unfold writable, dropped. rewrite is_closed_close.
  apply Nat.eqb_neq in Hne. rewrite Hne. reflexivity.
Qed.

Lemma registered_dropped (w : world) (s s' : sock) :
  s' <> s -> registered (dropped w s) s' = registered w s'.
Proof.
  intros Hne. unfold registered. rewrite dropped_clients.
  rewrite DictFacts.get_remove_other by exact Hne. reflexivity.
Qed.

(** Tearing down a connection registered under a non-empty nickname: its
    entry is removed, its socket closed, and its departure line delivered to
    every other registered connection that can be written to.  Nothing is
    written to the departing socket itself, and nothing but departure lines
    is written at all. *)
Theorem remove_client_announces (w : world) (s : sock) (nick : str) :
  Dict.get s (clients w) = Some nick ->
  nick <> [] ->
  exists w' evs,
    remove_client w s = Some w' /\ emitted w w' evs /\
    registered w' s = false /\ is_closed w' s = true /\
    (forall s', s' <> s -> registered w s' = true -> writable w s' = true ->
                delivered w w' s' (wire (text_leave nick))) /\
    (forall s' d ok, In (EvSend s' d ok) evs ->
                     s' <> s /\ exists n, d = wire (text_leave n)).
Proof.
  intros Hg Hn. destruct nick as [|c n]; [congruence|].
  destruct (remove_client_total w s) as [w' H].
  destruct (remove_client_drops _ _ _ H) as (_ & Hout & Hcl).
  rewrite remove_client_eq, Hg in H.
  destruct (broadcast_facts _ _ _ _ H) as (_ & Hdel & evs & He & Hs).
  exists w', (EvClose s :: evs).
  split; [rewrite remove_client_eq, Hg; exact H|].
  split; [apply (emitted_app w (dropped w s) w' [_] evs); [reflexivity | exact He]|].
  split; [exact Hout|]. split; [exact Hcl|]. split.
  - intros s' Hne Hr Hw. eapply delivered_later; [apply (dropped_evolves w s)|].
    apply Hdel.
    + apply in_snapshot_all. rewrite registered_dropped; assumption.
    + rewrite writable_dropped; assumption.
  - intros s' d ok [Heq|Hin]; [discriminate|].
    destruct (Hs _ _ _ Hin) as [Hr Hd]. split.
    + intros ->. destruct (dropped_gone w s) as [Hgone _]. congruence.
    + destruct Hd as [->|Hd]; [eexists; reflexivity | exact Hd].
Qed.

Lemma remove_client_announces_witness :
  exists w' evs,
    remove_client w_alice_bob 1 = Some w' /\ emitted w_alice_bob w' evs
    /\ delivered w_alice_bob w' 2 (wire (text_leave (lit "alice")))
    /\ registered w' 1 = false.
Proof.
  destruct (remove_client_announces w_alice_bob 1 (lit "alice"))
    as (w' & evs & H & He & Hout & _ & Hdel & _).
  - reflexivity.
  - discriminate.
  - exists w', evs. split; [exact H|]. split; [exact He|]. split; [|exact Hout].
    apply Hdel; [discriminate | reflexivity | reflexivity].
Defined.

(** However a session ends (a refused nickname, quit, end of stream, a
    failed write), [handle_client] returns, and it returns with the
    connection closed and without an entry for it. *)
Theorem handle_client_cleans_up (w : world) (s : sock) (rx : list recv_result) :
  exists w' o,
    handle_client w s rx = Some (w', o) /\
    registered w' s = false /\
    is_closed w' s = true.
Proof.
  destruct (handle_client_total w s rx) as (w' & o & H). exists w', o.
  split; [exact H|]. unfold handle_client in H.
  destruct (handle_client_try w s rx) as [[w1 r]|] eqn:Ht; [|discriminate].
  destruct (remove_client w1 s) as [w2|] eqn:Hr; [|discriminate].
  injection H as <- <-.
  destruct (remove_client_drops _ _ _ Hr) as (_ & Hout & Hcl).
  split; assumption.
Qed.

(** A connection whose stream ends (or fails) before a first line arrived
    is treated like one with a blank nickname: one [sendall] of the refusal
    line, the socket closed, no entry, no broadcast. *)
Theorem eof_before_nickname_refused
        (w : world) (s : sock) (rx : list recv_result) :
  fst (recv_line w s rx) = None ->
  registered w s = false ->
  exists w',
    handle_client w s rx
    = Some (w', if writable w s then Returned else Raised OSError) /\
    emitted w w' (EvSend s REFUSAL (writable w s)
                  :: if writable w s then [EvClose s; EvClose s] else [EvClose s]) /\
    clients w' = clients w.
Proof.
  intros Hr Hreg. unfold handle_client, handle_client_try.
  destruct (recv_line w s rx) as [r rx1]. simpl in Hr. subst r. unfold sendall.
  destruct (writable w s).
  - set (w1 := close (log w (EvSend s REFUSAL true)) s).
    destruct (remove_client_absent w1 s Hreg) as [Hrm Hc]. rewrite Hrm.
    exists (close w1 s). split; [reflexivity|]. split; [|reflexivity].
    unfold emitted. simpl. rewrite <- !app_assoc. reflexivity.
  - set (w1 := log w (EvSend s REFUSAL false)).
    destruct (remove_client_absent w1 s Hreg) as [Hrm Hc]. rewrite Hrm.
    exists (close w1 s). split; [reflexivity|]. split; [|reflexivity].
    unfold emitted. simpl. rewrite <- !app_assoc. reflexivity.
Qed.

Lemma eof_before_nickname_refused_witness :
  exists w',
    handle_client w_bob 1 [RChunk (list_byte_of_string "ali"); RChunk []] = Some (w', Returned)
    /\ trace w' = [EvSend 1 REFUSAL true; EvClose 1; EvClose 1].
Proof.
  destruct (eof_before_nickname_refused w_bob 1
              [RChunk (list_byte_of_string "ali"); RChunk []])
    as (w' & H & He & _).
  - reflexivity.
  - reflexivity.
  - exists w'. split; [exact H | exact He].
Defined.

(** ** send_whisper *)

(** A whisper whose target is found is two [sendall] calls and nothing else:
    the whisper line to the target, then the confirmation to the sender.  A
    failed write is swallowed: the second call is made whatever came of the
    first, the function returns normally, and, unlike in [broadcast], no
    entry is removed and no socket closed. *)
Theorem send_whisper_found
        (w : world) (sender target_name content : str) (t s : sock) (d1 d2 : bytes) :
  find_by_nickname (clients w) target_name = Some t ->
  Utf8.encode Strict (text_whisper sender content ++ [NL]) = Some d1 ->
  Utf8.encode Strict (text_whisper_sent target_name content ++ [NL]) = Some d2 ->
  send_whisper w sender target_name content s
  = (mkWorld (clients w) (closed w) (broken w)
             (trace w ++ [EvSend t d1 (writable w t); EvSend s d2 (writable w s)]),
     None).
Proof.
  intros Hf H1 H2. unfold send_whisper. rewrite Hf.
  cbn [whisper_each]. rewrite H1. unfold sendall. cbn [fst].
  rewrite H2. cbn [fst]. rewrite writable_log. unfold log. simpl.
  rewrite <- app_assoc. reflexivity.
Qed.

Lemma send_whisper_found_witness :
  send_whisper w_bob_gone (lit "alice") (lit "bob") (lit "hi") 1
  = (mkWorld (clients w_bob_gone) [] [2]
             [EvSend 2 (line_of "(귓속말) alice> hi") false;
              EvSend 1 (line_of "(귓속말 보냄) bob에게> hi") true],
     None).
Proof.
  apply (send_whisper_found w_bob_gone (lit "alice") (lit "bob") (lit "hi") 2 1
           (line_of "(귓속말) alice> hi") (line_of "(귓속말 보냄) bob에게> hi")
           eq_refl eq_refl eq_refl).
Defined.

(** With several entries under one nickname, the lookup of [send_whisper]
    returns the one registered first; and whatever it returns is an entry
    with that nickname. *)
Theorem find_by_nickname_first (d1 d2 : Dict.t) (s : sock) (name : str) :
  (forall s' n', In (s', n') d1 -> n' <> name) ->
  find_by_nickname (d1 ++ (s, name) :: d2) name = Some s
  /\ (forall d t, find_by_nickname d name = Some t -> In (t, name) d).
Proof.
  intros H. split.
  - induction d1 as [|[s0 n0] d1 IH]; simpl.
    + assert (E : Str.eqb name name = true) by (apply str_eqb_eq; reflexivity).
      rewrite E. reflexivity.
    + destruct (Str.eqb n0 name) eqn:E.
      * apply str_eqb_eq in E. exfalso. apply (H s0 n0); [now left | exact E].
      * apply IH. intros s' n' Hin. apply (H s' n'). now right.
  - intros d t. induction d as [|[s0 n0] d IH]; simpl; [discriminate|].
    destruct (Str.eqb n0 name) eqn:E.
    + apply str_eqb_eq in E. intros Heq. injection Heq as <-. left. congruence.
    + intros Hd. right. apply IH, Hd.
Qed.

Lemma find_by_nickname_first_witness :
  find_by_nickname ([(1, lit "alice")] ++ (2, lit "bob") :: [(3, lit "bob")]) (lit "bob")
  = Some 2.
Proof.
  apply (find_by_nickname_first [(1, lit "alice")] [(3, lit "bob")] 2 (lit "bob")).
  intros s' n' [Heq|[]]. injection Heq as <- <-. discriminate.
Defined.

(** ** recv_line at the end of the stream *)

Lemma recv_line_loop_incomplete (chunks : list bytes) :
  forall (buf : bytes) (tail rx : list recv_result),
    Forall (fun c => c <> []) chunks ->
    ~ In x0a (buf ++ concat chunks) ->
    stream_end tail = Some rx ->
    recv_line_loop false buf (map RChunk chunks ++ tail) = (None, rx).
Proof.
  induction chunks as [|c chunks IH]; intros buf tail rx Hne Hno Hend.
  - cbn [map concat app] in *. rewrite app_nil_r in Hno.
    pose proof (cut_nl_none buf Hno) as Hc.
    destruct tail as [|[[|b l]|] tail]; simpl in Hend; try discriminate;
      injection Hend as <-; simpl; rewrite Hc; reflexivity.
  - inversion Hne as [|? ? Hc Hrest]; subst. cbn [map concat app] in *.
    rewrite recv_line_loop_next; [| |exact Hc].
    + apply IH; try assumption. rewrite <- (app_assoc buf c (concat chunks)). exact Hno.
    + apply cut_nl_none. intros Hin. apply Hno. apply in_or_app. now left.
Qed.

(** Bytes that arrive without a delimiter before the stream ends or fails
    are not a line: [recv_line] returns the failure value and they are
    gone. *)
Theorem recv_line_incomplete
        (w : world) (s : sock) (chunks : list bytes) (tail rx : list recv_result) :
  is_closed w s = false ->
  Forall (fun c => c <> []) chunks ->
  ~ In x0a (concat chunks) ->
  stream_end tail = Some rx ->
  recv_line w s (map RChunk chunks ++ tail) = (None, rx).
Proof.
  intros Hopen Hne Hno Hend. unfold recv_line. rewrite Hopen.
  apply recv_line_loop_incomplete; assumption.
Qed.

Lemma recv_line_incomplete_witness :
  recv_line w_empty 1 ([RChunk (list_byte_of_string "bye")] ++ [ROSError; RChunk (line_of "x")])
  = (None, [RChunk (line_of "x")]).
Proof.
  apply (recv_line_incomplete w_empty 1 [list_byte_of_string "bye"]).
  - reflexivity.
  - constructor; [discriminate | constructor].
  - simpl. intros [H|[H|[H|[]]]]; discriminate.
  - reflexivity.
Defined.

(** ** The codec: what is encoded decodes to itself *)

Module CodecFacts.

Local Open Scope N_scope.

Ltac lia_div := zify; Z.to_euclidean_division_equations; lia.

Lemma to_N_byte_of_N (n : N) : n < 256 -> Byte.to_N (byte_of_N n) = n.
Proof.
  intros H. unfold byte_of_N. rewrite N.mod_small by exact H.
  destruct (Byte.of_N n) as [b|] eqn:E; [apply Byte.to_of_N, E|].
  apply Byte.of_N_None_iff in E. lia.
Qed.

Lemma land_mask (a k : N) : N.land a (N.ones k) = a mod 2 ^ k.
Proof. apply N.land_ones. Qed.

Ltac decide_tests :=
  repeat match goal with
         | |- context [N.ltb ?a ?b] =>
           first [ rewrite (proj2 (N.ltb_lt a b)) by lia_div
                 | rewrite (proj2 (N.ltb_ge a b)) by lia_div ]
         | |- context [N.leb ?a ?b] =>
           first [ rewrite (proj2 (N.leb_le a b)) by lia_div
                 | rewrite (proj2 (N.leb_gt a b)) by lia_div ]
         | |- context [N.eqb ?a ?b] =>
           first [ rewrite (proj2 (N.eqb_eq a b)) by lia_div
                 | rewrite (proj2 (N.eqb_neq a b)) by lia_div ]
         end.

Ltac decide_tests_with tac :=
  repeat match goal with
         | |- context [N.ltb ?a ?b] =>
           first [ rewrite (proj2 (N.ltb_lt a b)) by tac
                 | rewrite (proj2 (N.ltb_ge a b)) by tac ]
         | |- context [N.leb ?a ?b] =>
           first [ rewrite (proj2 (N.leb_le a b)) by tac
                 | rewrite (proj2 (N.leb_gt a b)) by tac ]
         end.

Lemma mask_lead (base x k : N) :
  x < 2 ^ k -> base mod 2 ^ k = 0 -> N.land (base + x) (N.ones k) = x.
Proof.
  intros Hx Hb. rewrite N.land_ones.
  rewrite <- N.Div0.add_mod_idemp_l, Hb, N.add_0_l. apply N.mod_small, Hx.
Qed.

Lemma decode_encode_cp (e : errors) (c : N) (rest : bytes) :
  is_scalar c = true ->
  exists bs, Utf8.encode_cp c = Some bs /\
             Utf8.decode e (bs ++ rest) = option_map (cons c) (Utf8.decode e rest).
Proof.
  unfold is_scalar, Utf8.encode_cp, Utf8.is_surrogate. intros H.
  apply andb_true_iff in H. destruct H as [Hmax Hsur]. apply N.ltb_lt in Hmax.
  apply negb_true_iff in Hsur.
  destruct (c <? 128) eqn:E1.
  - apply N.ltb_lt in E1. eexists. split; [reflexivity|].
    cbn [app Utf8.decode]. rewrite !to_N_byte_of_N by lia.
    rewrite (proj2 (N.ltb_lt c 128)) by lia. reflexivity.
  - apply N.ltb_ge in E1. destruct (c <? 2048) eqn:E2.
    + apply N.ltb_lt in E2. eexists. split; [reflexivity|].
      assert (Hc : c = (c / 64) * 64 + c mod 64 /\ 2 <= c / 64 < 32 /\ c mod 64 < 64)
        by lia_div.
      destruct Hc as (Hc & Ha & Hd).
      remember (c / 64) as a. remember (c mod 64) as d. clear Heqa Heqd.
      cbn [app Utf8.decode]. unfold Utf8.is_continuation, Utf8.low6.
      rewrite !to_N_byte_of_N by lia.
      decide_tests_with lia. cbn [andb].
      change 31 with (N.ones 5). change 63 with (N.ones 6).
      rewrite (mask_lead 192 a 5), (mask_lead 128 d 6) by (reflexivity || (cbn; lia)).
      rewrite Hc. reflexivity.
    + apply N.ltb_ge in E2. rewrite Hsur.
      apply andb_false_iff in Hsur.
      assert (Hs : c < 0xD800 \/ 0xDFFF < c).
      { destruct Hsur as [Hs|Hs]; [left; apply N.leb_gt in Hs | right; apply N.leb_gt in Hs];
          exact Hs. }
      destruct (c <? 65536) eqn:E3.
      * apply N.ltb_lt in E3. eexists. split; [reflexivity|].
        assert (Hc : c = (c / 4096) * 4096 + ((c / 64) mod 64) * 64 + c mod 64
                     /\ c / 4096 < 16 /\ (c / 64) mod 64 < 64 /\ c mod 64 < 64)
          by lia_div.
        destruct Hc as (Hc & Ha & Hb & Hd).
        remember (c / 4096) as a. remember ((c / 64) mod 64) as b.
        remember (c mod 64) as d. clear Heqa Heqb Heqd.
        cbn [app Utf8.decode].
        unfold Utf8.second_ok3, Utf8.is_continuation, Utf8.low6.
        rewrite !to_N_byte_of_N by lia.
        assert (H3 : (224 + a =? 224) && (128 + b <? 160) = false).
        { apply andb_false_iff.
          destruct (N.eq_dec a 0) as [H0|H0];
            [right; apply N.ltb_ge | left; apply N.eqb_neq]; lia. }
        assert (H4 : (224 + a =? 237) && (160 <=? 128 + b) = false).
        { apply andb_false_iff.
          destruct (N.eq_dec a 13) as [H0|H0];
            [right; apply N.leb_gt | left; apply N.eqb_neq]; lia. }
        rewrite H3, H4.
        decide_tests_with lia. cbn [andb negb].
        change 15 with (N.ones 4). change 63 with (N.ones 6).
        rewrite (mask_lead 224 a 4), !(mask_lead 128 _ 6) by (reflexivity || (cbn; lia)).
        rewrite Hc. reflexivity.
      * apply N.ltb_ge in E3. eexists. split; [reflexivity|].
        assert (Hc : c = ((c / 262144) mod 8) * 262144 + ((c / 4096) mod 64) * 4096
                         + ((c / 64) mod 64) * 64 + c mod 64
                     /\ (c / 262144) mod 8 < 5 /\ (c / 4096) mod 64 < 64
                     /\ (c / 64) mod 64 < 64 /\ c mod 64 < 64)
          by lia_div.
        destruct Hc as (Hc & Ha & Hb & Hb' & Hd).
        remember ((c / 262144) mod 8) as a. remember ((c / 4096) mod 64) as b.
        remember ((c / 64) mod 64) as b'. remember (c mod 64) as d.
        clear Heqa Heqb Heqb' Heqd.
        cbn [app Utf8.decode].
        unfold Utf8.second_ok4, Utf8.is_continuation, Utf8.low6.
        rewrite !to_N_byte_of_N by lia.
        assert (H3 : (240 + a =? 240) && (128 + b <? 144) = false).
        { apply andb_false_iff.
          destruct (N.eq_dec a 0) as [H0|H0];
            [right; apply N.ltb_ge | left; apply N.eqb_neq]; lia. }
        assert (H4 : (240 + a =? 244) && (144 <=? 128 + b) = false).
        { apply andb_false_iff.
          destruct (N.eq_dec a 4) as [H0|H0];
            [right; apply N.leb_gt | left; apply N.eqb_neq]; lia. }
        rewrite H3, H4.
        decide_tests_with lia. cbn [andb negb].
        change 7 with (N.ones 3). change 63 with (N.ones 6).
        rewrite (mask_lead 240 a 3), !(mask_lead 128 _ 6) by (reflexivity || (cbn; lia)).
        rewrite Hc. reflexivity.
Qed.

Lemma byte_of_N_not_nl (v : N) : v < 256 -> v <> 10 -> byte_of_N v <> x0a.
Proof.
  intros Hv Hn Heq. apply (f_equal Byte.to_N) in Heq.
  rewrite to_N_byte_of_N in Heq by exact Hv. apply Hn. exact Heq.
Qed.

Lemma some_inj {A : Type} (x y : A) : Some x = Some y -> x = y.
Proof. congruence. Qed.

Lemma encode_cp_no_nl (c : N) (bs : bytes) :
  is_scalar c = true -> c <> NL -> Utf8.encode_cp c = Some bs -> ~ In x0a bs.
Proof.
  unfold is_scalar, Utf8.encode_cp, NL. intros H Hn.
  apply andb_true_iff in H. destruct H as [Hmax _]. apply N.ltb_lt in Hmax.
  destruct (c <? 128) eqn:E1; [apply N.ltb_lt in E1 | apply N.ltb_ge in E1].
  - intros Hb. apply some_inj in Hb. subst bs. intros [H|[]]. revert H.
    apply byte_of_N_not_nl; lia.
  - destruct (c <? 2048) eqn:E2; [apply N.ltb_lt in E2 | apply N.ltb_ge in E2].
    + intros Hb. apply some_inj in Hb. subst bs.
      intros [H|[H|[]]]; revert H; apply byte_of_N_not_nl; lia_div.
    + destruct (Utf8.is_surrogate c); [discriminate|].
      destruct (c <? 65536) eqn:E3; [apply N.ltb_lt in E3 | apply N.ltb_ge in E3];
        intros Hb; apply some_inj in Hb; subst bs.
      * intros [H|[H|[H|[]]]]; revert H; apply byte_of_N_not_nl; lia_div.
      * intros [H|[H|[H|[H|[]]]]]; revert H; apply byte_of_N_not_nl; lia_div.
Qed.

Lemma encode_replace_app (a b : str) :
  Utf8.encode_replace (a ++ b) = Utf8.encode_replace a ++ Utf8.encode_replace b.
Proof. apply flat_map_app. Qed.

Lemma wellformed_no_surrogate (s : str) :
  wellformed s = true -> forallb (fun c => negb (Utf8.is_surrogate c)) s = true.
Proof.
  unfold wellformed. rewrite !forallb_forall. intros H c Hc.
  specialize (H c Hc). unfold is_scalar in H. apply andb_true_iff in H. apply H.
Qed.

Lemma encode_wellformed (s : str) :
  wellformed s = true -> Utf8.encode Strict s = Some (Utf8.encode_replace s).
Proof. intros H. apply Utf8Facts.encode_strict_no_surrogate, wellformed_no_surrogate, H. Qed.

Lemma decode_encode (e : errors) (s : str) :
  wellformed s = true -> Utf8.decode e (Utf8.encode_replace s) = Some s.
Proof.
  induction s as [|c s IH]; [destruct e; reflexivity|].
  intros H. simpl in H. apply andb_true_iff in H. destruct H as [Hc Hs].
  destruct (decode_encode_cp e c (Utf8.encode_replace s) Hc) as (bs & Hbs & Hd).
  change (Utf8.encode_replace (c :: s))
    with (match Utf8.encode_cp c with Some bs => bs | None => ["?"%byte] end
          ++ Utf8.encode_replace s).
  rewrite Hbs, Hd, (IH Hs). reflexivity.
Qed.

Lemma encode_no_nl (s : str) :
  wellformed s = true -> ~ In NL s -> ~ In x0a (Utf8.encode_replace s).
Proof.
  induction s as [|c s IH]; [intros _ _ []|].
  intros H Hn. simpl in H. apply andb_true_iff in H. destruct H as [Hc Hs].
  change (Utf8.encode_replace (c :: s))
    with (match Utf8.encode_cp c with Some bs => bs | None => ["?"%byte] end
          ++ Utf8.encode_replace s).
  destruct (decode_encode_cp Strict c [] Hc) as (bs & Hbs & _). rewrite Hbs.
  intros Hin. apply in_app_or in Hin. destruct Hin as [Hin|Hin].
  - revert Hin. apply (encode_cp_no_nl c bs Hc); [|exact Hbs].
    intros ->. apply Hn. now left.
  - revert Hin. apply IH; [exact Hs|]. intros Hin. apply Hn. now right.
Qed.

Lemma wellformed_app (a b : str) :
  wellformed (a ++ b) = wellformed a && wellformed b.
Proof. apply forallb_app. Qed.

(** The bytes of a line of text, and what [recv_line] makes of them when they
    arrive in one piece. *)
Lemma line_payload (text : str) :
  wellformed text = true ->
  Utf8.encode Strict (text ++ [NL]) = Some (Utf8.encode_replace text ++ [x0a]).
Proof.
  intros H. rewrite encode_wellformed.
  - rewrite encode_replace_app. reflexivity.
  - rewrite wellformed_app, H. reflexivity.
Qed.

Lemma recv_line_payload (w : world) (s : sock) (text : str) (rx : list recv_result) :
  wellformed text = true -> ~ In NL text -> is_closed w s = false ->
  recv_line w s (RChunk (Utf8.encode_replace text ++ [x0a]) :: rx) = (Some text, rx).
Proof.
  intros Hw Hn Hopen. unfold recv_line. rewrite Hopen.
  rewrite <- (decode_encode Replace text Hw).
  apply (recv_line_loop_first_line [] [] (Utf8.encode_replace text ++ [x0a])
           (Utf8.encode_replace text) [] rx).
  - constructor.
  - intros [].
  - reflexivity.
  - apply encode_no_nl; assumption.
Qed.

End CodecFacts.

(** ** main of client.py *)

Lemma in_drop_newlines (x : N) (s : str) : In x (drop_newlines s) -> In x s.
Proof.
  induction s as [|c s IH]; simpl; [tauto|].
  destruct (N.eqb c NL); [intros H; right; apply IH, H | simpl; tauto].
Qed.

Lemma in_rstrip_newlines (x : N) (s : str) : In x (rstrip_newlines s) -> In x s.
Proof.
  unfold rstrip_newlines. intros H. apply in_rev in H.
  apply in_drop_newlines in H. apply in_rev, H.
Qed.

Lemma wellformed_rstrip (s : str) :
  wellformed s = true -> wellformed (rstrip_newlines s) = true.
Proof.
  unfold wellformed. rewrite !forallb_forall. intros H x Hx.
  apply H, in_rstrip_newlines, Hx.
Qed.

Lemma rstrip_newlines_id (s : str) : ~ In NL s -> rstrip_newlines s = s.
Proof.
  intros Hn. unfold rstrip_newlines.
  assert (H : drop_newlines (rev s) = rev s).
  { destruct (rev s) as [|c r] eqn:E; [reflexivity|]. simpl.
    destruct (N.eqb c NL) eqn:Ec; [|reflexivity].
    apply N.eqb_eq in Ec. subst c. exfalso. apply Hn, in_rev. rewrite E. now left. }
  rewrite H. apply rev_involutive.
Qed.

(** The pass for the quit token ends the loop. *)
Lemma client_pass_quit_ends (alive : bool) :
  client_pass alive QUIT
  = if alive then ([QUIT_LINE], Some Quit) else ([], Some ConnectionLost).
Proof. destruct alive; reflexivity. Qed.

Lemma quit_wellformed : wellformed QUIT = true.
Proof. reflexivity. Qed.

Lemma quit_line_eq : QUIT_LINE = Utf8.encode_replace QUIT ++ [x0a].
Proof. reflexivity. Qed.

(** What a pass does with a line that can be encoded. *)
Lemma client_pass_wellformed (alive : bool) (line : str) :
  wellformed line = true ->
  client_pass alive line =
  if alive then
    if Str.eqb (rstrip_newlines line) QUIT
    then ([QUIT_LINE], Some Quit)
    else ([Utf8.encode_replace (rstrip_newlines line) ++ [x0a]], None)
  else ([], Some ConnectionLost).
Proof.
  intros Hw. unfold client_pass.
  rewrite (CodecFacts.line_payload _ (wellformed_rstrip line Hw)).
  destruct alive; [|reflexivity].
  destruct (Str.eqb (rstrip_newlines line) QUIT) eqn:E; [|reflexivity].
  apply str_eqb_eq in E. rewrite E. reflexivity.
Qed.

Lemma payload_not_quit (text : str) :
  wellformed text = true -> Str.eqb text QUIT = false ->
  Utf8.encode_replace text ++ [x0a] <> QUIT_LINE.
Proof.
  intros Hw Hq Heq. rewrite quit_line_eq in Heq. apply app_inv_tail in Heq.
  assert (H : Some text = Some QUIT).
  { rewrite <- (CodecFacts.decode_encode Strict text Hw).
    rewrite <- (CodecFacts.decode_encode Strict QUIT quit_wellformed).
    rewrite Heq. reflexivity. }
  injection H as ->.
  assert (Str.eqb QUIT QUIT = true) by reflexivity. congruence.
Qed.

(** The input loop of the client, for lines that can be encoded.  It never
    writes more often than the connection takes writes.  It ends either
    after the quit line, which is then the last thing written and written
    only once, or because a write failed, and then the quit line was not
    written at all.  When the connection outlasts the input, the loop ends
    with the quit line even if the user never typed it. *)
Theorem client_loop_ends_with_quit (inputs : list str) : forall alive,
  forallb wellformed inputs = true ->
  exists sent e,
    client_loop alive inputs = (sent, e) /\
    length sent <= alive /\
    ((e = Quit /\ exists pre, sent = pre ++ [QUIT_LINE] /\ ~ In QUIT_LINE pre)
     \/ (e = ConnectionLost /\ length sent = alive /\ ~ In QUIT_LINE sent)) /\
    (length inputs < alive -> e = Quit).
Proof.
  induction inputs as [|line rest IH]; intros alive Hw.
  - cbn [client_loop]. rewrite client_pass_quit_ends.
    destruct alive as [|a]; cbn [Nat.ltb Nat.leb].
    + exists [], ConnectionLost. split; [reflexivity|]. split; [simpl; lia|].
      split; [right; repeat split; intros [] | simpl; lia].
    + exists [QUIT_LINE], Quit. split; [reflexivity|]. split; [simpl; lia|].
      split; [left; split; [reflexivity|]; exists []; split; [reflexivity | intros []]|].
      reflexivity.
  - simpl in Hw. apply andb_true_iff in Hw. destruct Hw as [Hl Hr].
    cbn [client_loop]. rewrite (client_pass_wellformed _ line Hl).
    destruct alive as [|a]; cbn [Nat.ltb Nat.leb].
    + exists [], ConnectionLost. split; [reflexivity|]. split; [simpl; lia|].
      split; [right; repeat split; intros [] | simpl; lia].
    + destruct (Str.eqb (rstrip_newlines line) QUIT) eqn:Eq.
      * exists [QUIT_LINE], Quit. split; [reflexivity|]. split; [simpl; lia|].
        split; [left; split; [reflexivity|]; exists []; split; [reflexivity | intros []]|].
        reflexivity.
      * destruct (IH a Hr) as (sent & e & Hloop & Hlen & Hend & Hlive).
        cbn [pred]. rewrite Hloop.
        set (p := Utf8.encode_replace (rstrip_newlines line) ++ [x0a]).
        assert (Hp : p <> QUIT_LINE)
          by (apply payload_not_quit; [apply wellformed_rstrip, Hl | exact Eq]).
        exists (p :: sent), e. split; [reflexivity|]. split; [simpl; lia|]. split.
        -- destruct Hend as [(-> & pre & -> & Hpre) | (-> & Hl' & Hno)].
           ++ left. split; [reflexivity|]. exists (p :: pre). split; [reflexivity|].
              intros [H|H]; [apply Hp, H | apply Hpre, H].
           ++ right. split; [reflexivity|]. split; [simpl; lia|].
              intros [H|H]; [apply Hp, H | apply Hno, H].
        -- intros Hlt. apply Hlive. simpl in Hlt. lia.
Qed.

Lemma client_loop_ends_with_quit_witness :
  exists sent e,
    client_loop 5 [lit "hello"; lit "/종료"; lit "never sent"] = (sent, e)
    /\ e = Quit.
Proof.
  destruct (client_loop_ends_with_quit [lit "hello"; lit "/종료"; lit "never sent"] 5)
    as (sent & e & H & _ & _ & Hq).
  - reflexivity.
  - exists sent, e. split; [exact H|]. apply Hq. simpl. lia.
Defined.

(** A line typed at the client arrives at the server as typed: when the line
    can be encoded and holds no line break, the pass writes one payload, and
    [recv_line], given that payload in one piece, returns the line. *)
Theorem client_line_round_trip (line : str) :
  wellformed line = true ->
  ~ In NL line ->
  Str.eqb line QUIT = false ->
  exists payload,
    client_pass true line = ([payload], None) /\
    forall w s rx, is_closed w s = false ->
                   recv_line w s (RChunk payload :: rx) = (Some line, rx).
Proof.
  intros Hw Hn Hq. exists (Utf8.encode_replace line ++ [x0a]). split.
  - rewrite (client_pass_wellformed true line Hw), (rstrip_newlines_id line Hn), Hq.
    reflexivity.
  - intros w s rx Hopen. apply CodecFacts.recv_line_payload; assumption.
Qed.

Lemma client_line_round_trip_witness :
  exists payload,
    client_pass true (lit "안녕 bob") = ([payload], None) /\
    recv_line w_empty 1 [RChunk payload] = (Some (lit "안녕 bob"), []).
Proof.
  destruct (client_line_round_trip (lit "안녕 bob")) as (payload & Hp & Hr).
  - reflexivity.
  - simpl. intros H. repeat (destruct H as [H|H]; [discriminate|]). exact H.
  - reflexivity.
  - exists payload. split; [exact Hp|]. apply Hr. reflexivity.
Defined.

(** The nickname the client was started with is the first thing it writes,
    and it reaches the server unchanged: a nickname that passes the client's
    own check, can be encoded and holds no line break is returned by the
    server's first [recv_line] and is not refused there. *)
Theorem client_nickname_arrives (nickname : str) (alive : nat) (inputs : list str) :
  wellformed nickname = true ->
  ~ In NL nickname ->
  Str.strip nickname <> [] ->
  exists payload sent e,
    client_main nickname true (S alive) inputs = (payload :: sent, e) /\
    refused (Some nickname) = false /\
    forall w s rx, is_closed w s = false ->
                   recv_line w s (RChunk payload :: rx) = (Some nickname, rx).
Proof.
  intros Hw Hn Hs.
  destruct (client_loop alive inputs) as [sent e] eqn:Hl.
  exists (Utf8.encode_replace nickname ++ [x0a]), sent, e. split; [|split].
  - unfold client_main. rewrite (CodecFacts.line_payload nickname Hw), Hl.
    destruct (Str.strip nickname); [congruence | reflexivity].
  - unfold refused. destruct (Str.strip nickname); [congruence | reflexivity].
  - intros w s rx Hopen. apply CodecFacts.recv_line_payload; assumption.
Qed.

Lemma client_nickname_arrives_witness :
  exists payload sent e,
    client_main (lit "alice") true 2 [] = (payload :: sent, e) /\
    recv_line w_empty 1 [RChunk payload] = (Some (lit "alice"), []).
Proof.
  destruct (client_nickname_arrives (lit "alice") 1 [])
    as (payload & sent & e & H & _ & Hr).
  - reflexivity.
  - simpl. intros H. repeat (destruct H as [H|H]; [discriminate|]). exact H.
  - discriminate.
  - exists payload, sent, e. split; [exact H|]. apply Hr. reflexivity.
Defined.

(** ** recv_loop of client.py *)

Lemma lines_from_no_nl (buf : bytes) : forall cur,
  ~ In x0a buf -> lines_from cur buf = ([], cur ++ buf).
Proof.
  induction buf as [|c buf IH]; intros cur Hn; simpl.
  - rewrite app_nil_r. reflexivity.
  - destruct (Byte.eqb c x0a) eqn:E.
    + apply Byte.byte_dec_bl in E. subst. exfalso. apply Hn. now left.
    + rewrite IH by (intros H; apply Hn; now right).
      rewrite <- app_assoc. reflexivity.
Qed.

Lemma lines_from_prefix (buf : bytes) : forall cur b,
  ~ In x0a buf -> lines_from cur (buf ++ b) = lines_from (cur ++ buf) b.
Proof.
  induction buf as [|c buf IH]; intros cur b Hn; simpl.
  - rewrite app_nil_r. reflexivity.
  - destruct (Byte.eqb c x0a) eqn:E.
    + apply Byte.byte_dec_bl in E. subst. exfalso. apply Hn. now left.
    + rewrite IH by (intros H; apply Hn; now right).
      rewrite <- app_assoc. reflexivity.
Qed.

Lemma lines_from_app (a : bytes) : forall cur b,
  lines_from cur (a ++ b) =
  (fst (lines_from cur a) ++ fst (lines_from (snd (lines_from cur a)) b),
   snd (lines_from (snd (lines_from cur a)) b)).
Proof.
  induction a as [|c a IH]; intros cur b; simpl.
  - destruct (lines_from cur b); reflexivity.
  - destruct (Byte.eqb c x0a).
    + rewrite (IH [] b). destruct (lines_from [] a) as [ls r]. reflexivity.
    + apply IH.
Qed.

Lemma lines_from_rest_no_nl (b : bytes) : forall cur,
  ~ In x0a cur -> ~ In x0a (snd (lines_from cur b)).
Proof.
  induction b as [|c b IH]; intros cur Hn; simpl; [exact Hn|].
  destruct (Byte.eqb c x0a) eqn:E.
  - specialize (IH [] (fun H => H)). destruct (lines_from [] b). exact IH.
  - apply IH. intros H. apply in_app_or in H. destruct H as [H|[H|[]]]; [auto|].
    subst c. rewrite (Byte.byte_dec_lb eq_refl) in E. discriminate.
Qed.

Lemma cut_nl_none_inv (buf : bytes) : cut_nl buf = None -> ~ In x0a buf.
Proof.
  induction buf as [|c buf IH]; simpl; [intros _ []|].
  destruct (Byte.eqb c x0a) eqn:E; [discriminate|].
  destruct (cut_nl buf) as [[l r]|]; [discriminate|].
  intros _ [H|H]; [|apply (IH eq_refl H)].
  subst c. rewrite (Byte.byte_dec_lb eq_refl) in E. discriminate.
Qed.

Lemma lines_from_cut (buf line rest : bytes) :
  cut_nl buf = Some (line, rest) ->
  lines_from [] buf = (line :: fst (lines_from [] rest), snd (lines_from [] rest)).
Proof.
  intros H. destruct (cut_nl_inv buf line rest H) as [-> Hn].
  rewrite (lines_from_prefix line [] (x0a :: rest) Hn). simpl.
  destruct (lines_from [] rest); reflexivity.
Qed.

Lemma decode_lines_app (a b : list bytes) :
  decode_lines (a ++ b) = decode_lines a ++ decode_lines b.
Proof. apply flat_map_app. Qed.

(** The inner loop prints every complete line of the buffer and keeps what
    follows the last delimiter. *)
Lemma print_lines_all (fuel : nat) : forall buf out,
  length buf < fuel ->
  print_lines fuel buf out
  = (snd (lines_from [] buf), out ++ decode_lines (fst (lines_from [] buf))).
Proof.
  induction fuel as [|n IH]; intros buf out Hlen; [lia|].
  simpl. destruct (cut_nl buf) as [[line rest]|] eqn:E.
  - assert (Hrest : length rest < n).
    { destruct (cut_nl_inv buf line rest E) as [-> _].
      rewrite length_app in Hlen. simpl in Hlen. lia. }
    rewrite (lines_from_cut buf line rest E). cbn [fst snd].
    change (decode_lines (line :: fst (lines_from [] rest)))
      with (match Utf8.decode Replace line with Some t => [t] | None => [] end
            ++ decode_lines (fst (lines_from [] rest))).
    destruct (Utf8.decode Replace line) as [t|]; rewrite (IH _ _ Hrest).
    + rewrite <- app_assoc. reflexivity.
    + reflexivity.
  - rewrite (lines_from_no_nl buf [] (cut_nl_none_inv buf E)). simpl.
    rewrite app_nil_r. reflexivity.
Qed.

Lemma recv_loop_stops (buf : bytes) (tail rx : list recv_result) (out : list str) :
  stream_end tail = Some rx -> recv_loop buf tail out = out.
Proof.
  destruct tail as [|[[|b l]|] tail]; simpl; intros H; try discriminate; reflexivity.
Qed.

Lemma recv_loop_lines (chunks : list bytes) :
  forall (buf : bytes) (tail rx : list recv_result) (out : list str),
    Forall (fun c => c <> []) chunks ->
    ~ In x0a buf ->
    stream_end tail = Some rx ->
    recv_loop buf (map RChunk chunks ++ tail) out
    = out ++ decode_lines (fst (lines_from buf (concat chunks))).
Proof.
  induction chunks as [|c chunks IH]; intros buf tail rx out Hne Hbuf Hend.
  - cbn [map concat app]. rewrite (recv_loop_stops buf tail rx out Hend).
    simpl. rewrite app_nil_r. reflexivity.
  - inversion Hne as [|? ? Hc Hrest]; subst. cbn [map concat app].
    destruct c as [|b0 c0]; [congruence|]. cbn [recv_loop].
    set (c := b0 :: c0) in *.
    rewrite (print_lines_all (S (length (buf ++ c))) (buf ++ c) out) by lia.
    rewrite (IH _ tail rx _ Hrest); [|apply lines_from_rest_no_nl; intros [] | exact Hend].
    rewrite <- app_assoc, <- decode_lines_app. f_equal. f_equal.
    rewrite (lines_from_app c buf (concat chunks)).
    rewrite (lines_from_prefix buf [] c Hbuf). reflexivity.
Qed.

(** The client's receive loop keeps what follows the last delimiter from one
    [recv] to the next: however the stream is cut into pieces, it prints
    every complete line of the whole stream, in order, each decoded with
    replacement, and stops at the end of the stream without printing an
    unfinished last line. *)
Theorem recv_loop_prints_every_line
        (chunks : list bytes) (tail rx : list recv_result) :
  Forall (fun c => c <> []) chunks ->
  stream_end tail = Some rx ->
  recv_loop [] (map RChunk chunks ++ tail) []
  = decode_lines (fst (lines_from [] (concat chunks))).
Proof.
  intros Hne Hend.
  apply (recv_loop_lines chunks [] tail rx [] Hne (fun H => H) Hend).
Qed.

Lemma recv_loop_prints_every_line_witness :
  recv_loop [] (map RChunk [list_byte_of_string "al"; line_of "ice> hi" ++ line_of "bob> yo";
                            list_byte_of_string "unfinished"] ++ [])
            []
  = [lit "alice> hi"; lit "bob> yo"].
Proof.
  apply (recv_loop_prints_every_line
           [list_byte_of_string "al"; line_of "ice> hi" ++ line_of "bob> yo";
            list_byte_of_string "unfinished"] [] []).
  - repeat constructor; discriminate.
  - reflexivity.
Defined.

(** ** Sessions, from the first line to the teardown *)

(** The [finally] block of [handle_client]: however the [try] block ended,
    by a return or by an exception, [remove_client] runs on the state it
    left.  If the connection is registered there under a non-empty nickname,
    every other connection that is registered and can be written to at that
    moment receives its departure line, the connection's entry is gone, and
    [handle_client] ends the way the [try] block did. *)
Theorem session_leave_announced
        (w : world) (s : sock) (rx : list recv_result)
        (w1 : world) (o : outcome) (nick : str) :
  handle_client_try w s rx = Some (w1, o) ->
  Dict.get s (clients w1) = Some nick ->
  nick <> [] ->
  exists w',
    handle_client w s rx = Some (w', o) /\
    registered w' s = false /\
    forall s', s' <> s -> registered w1 s' = true -> writable w1 s' = true ->
               delivered w1 w' s' (wire (text_leave nick)).
Proof.
  intros Ht Hg Hn. destruct nick as [|c n]; [congruence|].
  destruct (remove_client_total w1 s) as [w' H].
  destruct (remove_client_drops _ _ _ H) as (_ & Hout & _).
  exists w'. split; [unfold handle_client; rewrite Ht, H; reflexivity|].
  split; [exact Hout|].
  rewrite remove_client_eq, Hg in H.
  destruct (broadcast_facts _ _ _ _ H) as (_ & Hdel & _).
  intros s' Hne Hr Hw. eapply delivered_later; [apply (dropped_evolves w1 s)|].
  apply Hdel.
  - apply in_snapshot_all. rewrite registered_dropped; assumption.
  - rewrite writable_dropped; assumption.
Qed.

Lemma session_leave_announced_witness :
  exists w1 w',
    handle_client_try w_bob 1 [RChunk (line_of "alice"); RChunk (line_of "/w nobody")]
    = Some (w1, Returned)
    /\ handle_client w_bob 1 [RChunk (line_of "alice"); RChunk (line_of "/w nobody")]
       = Some (w', Returned)
    /\ delivered w1 w' 2 (wire (text_leave (lit "alice"))).
Proof.
  assert (Ht : exists w1,
             handle_client_try w_bob 1
               [RChunk (line_of "alice"); RChunk (line_of "/w nobody")]
             = Some (w1, Returned)
             /\ Dict.get 1 (clients w1) = Some (lit "alice")
             /\ registered w1 2 = true /\ writable w1 2 = true).
  { eexists. split; [vm_compute; reflexivity|]. repeat split; reflexivity. }
  destruct Ht as (w1 & Ht & Hg & Hr & Hw).
  destruct (session_leave_announced w_bob 1 _ w1 Returned (lit "alice") Ht Hg)
    as (w' & H & _ & Hdel).
  - discriminate.
  - exists w1, w'. split; [exact Ht|]. split; [exact H|].
    apply Hdel; [discriminate | exact Hr | exact Hw].
Defined.

Lemma same_length_prefix {A : Type} (x : list A) : forall y a b,
  x ++ a = y ++ b -> length x = length y -> x = y.
Proof.
  induction x as [|h x IH]; intros [|k y] a b H Hl; simpl in *; try discriminate;
    [reflexivity|].
  injection H as -> H. f_equal. apply (IH y a b H). lia.
Qed.

Lemma same_length_suffix {A : Type} (a b s1 s2 : list A) :
  a ++ s1 = b ++ s2 -> length s1 = length s2 -> s1 = s2.
Proof.
  intros H Hl. apply (f_equal (@rev A)) in H. rewrite !rev_app_distr in H.
  apply same_length_prefix in H; [|rewrite !length_rev; exact Hl].
  rewrite <- (rev_involutive s1), <- (rev_involutive s2), H. reflexivity.
Qed.

Lemma wire_join_eq (m : str) :
  wire (text_join m) =
  (Utf8.encode_replace (lit "[SYSTEM] [") ++ Utf8.encode_replace m)
  ++ Utf8.encode_replace (lit "] 님이 입장하셨습니다." ++ [NL]).
Proof.
  unfold wire, text_join. rewrite <- !app_assoc.
  rewrite (CodecFacts.encode_replace_app (lit "[SYSTEM] [")).
  rewrite (CodecFacts.encode_replace_app m). reflexivity.
Qed.

Lemma wire_leave_eq (m : str) :
  wire (text_leave m) =
  (Utf8.encode_replace (lit "[SYSTEM] [") ++ Utf8.encode_replace m)
  ++ Utf8.encode_replace (lit "] 님이 퇴장하셨습니다." ++ [NL]).
Proof.
  unfold wire, text_leave. rewrite <- !app_assoc.
  rewrite (CodecFacts.encode_replace_app (lit "[SYSTEM] [")).
  rewrite (CodecFacts.encode_replace_app m). reflexivity.
Qed.

(** A join line is never a departure line, and never the welcome line,
    whatever the nicknames. *)
Lemma join_not_leave (m m' : str) : wire (text_join m) <> wire (text_leave m').
Proof.
  rewrite wire_join_eq, wire_leave_eq. intros H.
  apply same_length_suffix in H; [discriminate | reflexivity].
Qed.

Lemma join_not_welcome (m : str) : wire (text_join m) <> WELCOME.
Proof.
  rewrite wire_join_eq.
  replace WELCOME with (firstn (length WELCOME - 32) WELCOME
                        ++ skipn (length WELCOME - 32) WELCOME)
    by apply firstn_skipn.
  intros H. apply same_length_suffix in H; [discriminate | reflexivity].
Qed.

(** When the welcome line cannot be written to a connection that has just
    given its nickname, the session ends with [OSError] before the join is
    announced: no join line is written to anyone.  The teardown still runs
    with the entry in place, so the other connections that can be written to
    receive the departure line of a nickname whose arrival they were never
    told. *)
Theorem welcome_failure_leaves_without_join
        (w : world) (s : sock) (rx rx1 : list recv_result) (n : str) :
  recv_line w s rx = (Some n, rx1) ->
  Str.strip n <> [] ->
  writable w s = false ->
  exists w' evs,
    handle_client w s rx = Some (w', Raised OSError) /\
    emitted w w' evs /\
    (forall s' d ok m, In (EvSend s' d ok) evs -> d <> wire (text_join m)) /\
    (forall s', s' <> s -> registered w s' = true -> writable w s' = true ->
                delivered w w' s' (wire (text_leave (Str.strip n)))) /\
    registered w' s = false.
Proof.
  intros Hr Hn Hs.
  assert (Hrf : refused (Some n) = false).
  { unfold refused. destruct (Str.strip n); congruence. }
  destruct (Str.strip n) as [|c0 n0] eqn:En; [congruence|].
  set (nick := c0 :: n0) in *.
  set (w1 := set_clients w (Dict.set s nick (clients w))).
  set (w2 := log w1 (EvSend s WELCOME false)).
  assert (Hg2 : Dict.get s (clients w2) = Some nick) by apply DictFacts.get_set_same.
  destruct (remove_client_total w2 s) as [w3 H3].
  destruct (remove_client_drops _ _ _ H3) as (_ & Hout & _).
  assert (Hhc : handle_client w s rx = Some (w3, Raised OSError)).
  { unfold handle_client, handle_client_try. rewrite Hr, Hrf, En.
    fold nick. fold w1. unfold sendall.
    change (writable w1 s) with (writable w s). rewrite Hs. fold w2.
    rewrite H3. reflexivity. }
  rewrite remove_client_eq, Hg2 in H3. unfold nick in H3. fold nick in H3.
  destruct (broadcast_facts _ _ _ _ H3) as (_ & Hdel & evs & He & Hso).
  exists w3, (EvSend s WELCOME false :: EvClose s :: evs).
  split; [exact Hhc|]. split; [|split; [|split; [|exact Hout]]].
  - apply (emitted_app w w2 w3 [_] (EvClose s :: evs)); [reflexivity|].
    apply (emitted_app w2 (dropped w2 s) w3 [_] evs); [reflexivity | exact He].
  - intros s' d ok m [Heq|[Heq|Hin]]; try discriminate.
    + injection Heq as _ <- _. intros H. symmetry in H. revert H. apply join_not_welcome.
    + destruct (Hso _ _ _ Hin) as [_ [->|[m' ->]]]; intros H; symmetry in H; revert H;
        apply join_not_leave.
  - intros s' Hne Hreg Hw.
    eapply (sent_after true w w2 w3 [EvSend s WELCOME false]); [reflexivity|].
    eapply sent_later; [apply (dropped_evolves w2 s)|].
    apply Hdel.
    + apply in_snapshot_all. rewrite registered_dropped by exact Hne.
      unfold registered in *. simpl.
      rewrite DictFacts.get_set_other by exact Hne. exact Hreg.
    + rewrite writable_dropped by exact Hne. exact Hw.
Qed.

Lemma welcome_failure_leaves_without_join_witness :
  exists w' evs,
    handle_client w_bob_gone 2 [RChunk (line_of "dave")] = Some (w', Raised OSError)
    /\ emitted w_bob_gone w' evs
    /\ delivered w_bob_gone w' 3 (wire (text_leave (lit "dave"))).
Proof.
  destruct (welcome_failure_leaves_without_join w_bob_gone 2 [RChunk (line_of "dave")] []
                                                (lit "dave"))
    as (w' & evs & H & He & _ & Hdel & _).
  - reflexivity.
  - discriminate.
  - reflexivity.
  - exists w', evs. split; [exact H|]. split; [exact He|].
    apply Hdel; [discriminate | reflexivity | reflexivity].
Defined.
